(** * remark-gitlab-artifact: a shallow embedding of [src/index.js]

    The plugin walks an MDAST tree, collects the [link] nodes whose [title]
    carries the [gitlab-artifact|] marker, downloads one GitLab job artifact
    per collected node, unpacks it next to the document and reports the
    outcome on the document's [vFile].

    The network, the response body streams, the archive extractor and the
    completion order of the concurrent per-link tasks are the environment:
    they appear here as a [world] of oracles and as a schedule.  An
    ['error'] event that finds no listener is thrown by Node and ends the
    process: the run stops where it is, and the promises still pending stay
    so. *)

From Stdlib Require Import List String Ascii ZArith Bool Arith Lia Permutation.
Import ListNotations.
Open Scope string_scope.
Open Scope list_scope.
Set Warnings "-register-all".

(** ** JavaScript values and strings *)

(** The values a node's [title] (or a vFile field) can hold. *)
Inductive jsval : Type :=
| JUndefined
| JNull
| JBool (b : bool)
| JNum (z : Z)
| JStr (s : string)
| JArr (xs : list jsval)
| JObj.

(** Errors are identified by their [message]. *)
Inductive error : Type := Error (msg : string).

Definition error_message (e : error) : string :=
  match e with Error m => m end.

(** A computation that either completes with a value or throws. *)
Inductive result (A : Type) : Type :=
| Ok (a : A)
| Throw (e : error).
Arguments Ok {A} a.
Arguments Throw {A} e.

(** [!v] is [negb (truthy v)]. *)
Definition truthy (v : jsval) : bool :=
  match v with
  | JUndefined | JNull => false
  | JBool b => b
  | JNum z => negb (z =? 0)%Z
  | JStr s => negb (s =? "")
  | JArr _ | JObj => true
  end.

(** [String.prototype.indexOf]: position of the first occurrence, [-1] when
    there is none. *)
Fixpoint indexOf_from (needle hay : string) (i : nat) : Z :=
  if prefix needle hay then Z.of_nat i
  else match hay with
       | EmptyString => (-1)%Z
       | String _ hay' => indexOf_from needle hay' (S i)
       end.

Definition str_indexOf (hay needle : string) : Z := indexOf_from needle hay 0.

(** [Array.prototype.indexOf] with a string argument: elements are compared
    with [===], so only an element that is that very string is found. *)
Definition strict_eq_str (v : jsval) (s : string) : bool :=
  match v with JStr t => (t =? s) | _ => false end.

Fixpoint arr_indexOf_from (xs : list jsval) (needle : string) (i : nat) : Z :=
  match xs with
  | [] => (-1)%Z
  | x :: xs' => if strict_eq_str x needle then Z.of_nat i
                else arr_indexOf_from xs' needle (S i)
  end.

(** [v.indexOf(needle)]: strings and arrays have the method; on any other
    truthy value the call is a [TypeError]. *)
Definition js_indexOf (v : jsval) (needle : string) : result Z :=
  match v with
  | JStr s => Ok (str_indexOf s needle)
  | JArr xs => Ok (arr_indexOf_from xs needle 0)
  | _ => Throw (Error "title.indexOf is not a function")
  end.

(** [s.split(sep)] for a one-character separator. *)
Fixpoint str_split (sep : ascii) (s : string) : list string :=
  match s with
  | EmptyString => [EmptyString]
  | String c s' =>
      if Ascii.eqb c sep then EmptyString :: str_split sep s'
      else match str_split sep s' with
           | x :: xs => String c x :: xs
           | [] => [String c EmptyString]
           end
  end.

(** [v.split('|')]: only strings have the method. *)
Definition js_split (v : jsval) : result (list string) :=
  match v with
  | JStr s => Ok (str_split "|"%char s)
  | _ => Throw (Error "title.split is not a function")
  end.

(** A template literal hole [${x}] for a variable that is a string or
    [undefined]. *)
Definition tmpl (x : option string) : string :=
  match x with Some s => s | None => "undefined" end.

(** ** The document tree *)

Record position : Type := mkPosition {
  start_line : nat; start_column : nat;
  end_line : nat; end_column : nat
}.

Inductive node : Type :=
| Node (type : string) (title : jsval) (pos : option position)
       (children : list node).

Definition node_type (n : node) : string :=
  match n with Node ty _ _ _ => ty end.
Definition node_title (n : node) : jsval :=
  match n with Node _ ti _ _ => ti end.
Definition node_position (n : node) : option position :=
  match n with Node _ _ po _ => po end.
Definition node_children (n : node) : list node :=
  match n with Node _ _ _ cs => cs end.

(** A node object is referred to by the child indices leading to it from
    the root. *)
Definition path : Type := list nat.

Definition enter (i : nat) (x : path * node) : path * node :=
  (i :: fst x, snd x).

(** [imap f i l]: [f] applied to every element with its index, the first
    element having index [i]. *)
Fixpoint imap {A B : Type} (f : nat -> A -> B) (i : nat) (l : list A)
  : list B :=
  match l with
  | [] => []
  | a :: l' => f i a :: imap f (S i) l'
  end.

(** [modify i f l]: [l] with [f] applied to its [i]-th element. *)
Fixpoint modify {A : Type} (i : nat) (f : A -> A) (l : list A) : list A :=
  match l, i with
  | [], _ => []
  | a :: l', O => f a :: l'
  | a :: l', S i' => a :: modify i' f l'
  end.

(** The nodes in the order [unist-util-visit] reaches them: a node, then its
    children from first to last, each with its own descendants. *)
Fixpoint preorder (n : node) : list (path * node) :=
  ([], n) ::
  List.concat
    (imap (fun i c => map (enter i) (preorder c)) 0 (node_children n)).

(** [visit(tree, type, visitor)] for a visitor that never returns [false]:
    the visitor runs on every node of that type, in order, threading its
    accumulator; its first throw aborts the walk. *)
Fixpoint visit_list {S : Type} (type : string)
         (visitor : path * node -> S -> result S)
         (l : list (path * node)) (acc : S) : result S :=
  match l with
  | [] => Ok acc
  | x :: l' =>
      if (node_type (snd x) =? type) then
        match visitor x acc with
        | Ok acc' => visit_list type visitor l' acc'
        | Throw e => Throw e
        end
      else visit_list type visitor l' acc
  end.

Definition visit {S : Type} (tree : node) (type : string)
           (visitor : path * node -> S -> result S) (acc : S) : result S :=
  visit_list type visitor (preorder tree) acc.

(** The node object at path [p]. *)
Fixpoint get_node (p : path) (n : node) : option node :=
  match p with
  | [] => Some n
  | i :: p' =>
      match nth_error (node_children n) i with
      | Some c => get_node p' c
      | None => None
      end
  end.

Definition title_at (p : path) (n : node) : option jsval :=
  option_map node_title (get_node p n).

(** [node.title = v] on the node at path [p]. *)
Fixpoint assign_title (p : path) (v : jsval) (n : node) : node :=
  match n with
  | Node ty ti po cs =>
      match p with
      | [] => Node ty v po cs
      | i :: p' => Node ty ti po (modify i (assign_title p' v) cs)
      end
  end.

Fixpoint path_eqb (p q : path) : bool :=
  match p, q with
  | [], [] => true
  | i :: p', j :: q' => (i =? j)%nat && path_eqb p' q'
  | _, _ => false
  end.

(** The tree with the title emptied at every path selected by [sel]. *)
Fixpoint clear_titles (sel : path -> bool) (n : node) : node :=
  match n with
  | Node ty ti po cs =>
      Node ty (if sel [] then JStr "" else ti) po
           (imap (fun i c => clear_titles (fun q => sel (i :: q)) c) 0 cs)
  end.

(** The tree with every title blanked: what is left is its structure. *)
Fixpoint shape (n : node) : node :=
  match n with
  | Node ty _ po cs => Node ty JUndefined po (map shape cs)
  end.

(** MDAST gives a link's [title] the type [string?]: in a well-typed tree
    every title is absent, [null] or a string. *)
Definition optional_string (v : jsval) : bool :=
  match v with JUndefined | JNull | JStr _ => true | _ => false end.

Fixpoint mdast (n : node) : bool :=
  match n with
  | Node _ ti _ cs => optional_string ti && forallb mdast cs
  end.

(** ** The vFile and its diagnostic report *)

Definition PLUGIN_NAME : string := "remark-gitlab-artifact".

(** [vFile.info] records an informational entry, [vFile.message] records the
    error it is given. *)
Inductive kind : Type := KInfo | KError.

Record vmessage : Type := mkMessage {
  m_kind : kind;
  m_message : string;
  m_position : option position;
  m_source : option string;
  m_ruleId : option string
}.

(** vfile splits the origin it is given at its first colon into source and
    rule id; an origin without a colon is a rule id, and the source stays
    [null]. *)
Definition parseOrigin (origin : string) : option string * option string :=
  let index := str_indexOf origin ":" in
  if (index =? -1)%Z then (None, Some origin)
  else (Some (substring 0 (Z.to_nat index) origin),
        Some (substring (Z.to_nat index + 1)
                        (String.length origin - (Z.to_nat index + 1)) origin)).

Record vfile : Type := mkVFile {
  data_destinationDir : jsval;
  dirname : jsval;
  messages : list vmessage
}.

Definition vfile_info (reason : string) (po : option position)
           (origin : string) (vFile : vfile) : vfile :=
  mkVFile (data_destinationDir vFile) (dirname vFile)
          (messages vFile
             ++ [mkMessage KInfo reason po (fst (parseOrigin origin))
                           (snd (parseOrigin origin))]).

Definition vfile_message (reason : error) (po : option position)
           (origin : string) (vFile : vfile) : vfile :=
  mkVFile (data_destinationDir vFile) (dirname vFile)
          (messages vFile
             ++ [mkMessage KError (error_message reason) po
                           (fst (parseOrigin origin))
                           (snd (parseOrigin origin))]).

Definition getDestinationDir (vFile : vfile) : jsval :=
  if truthy (data_destinationDir vFile) then data_destinationDir vFile
  else dirname vFile.

(** ** The environment: GitLab and the archive extractor *)

Definition stream : Type := string.

Record request : Type := mkRequest {
  req_method : string;
  req_url : string;
  req_headers : list (string * string)
}.

Record response : Type := mkResponse {
  status : Z;
  statusText : string;
  body : stream
}.

(** How a response body behaves as a readable stream once it is piped: it
    delivers its bytes and ends, or it emits ['error']. *)
Inductive flow : Type :=
| Ends
| Errors (e : error).

(** What the environment answers to the calls made on behalf of the [k]-th
    collected link: how the promise of [fetch] settles, how the body stream
    behaves, and how the unzip stream ends once it has been fed the whole
    body (['finish'] or ['error']).  The environment is taken to answer
    every call in the end. *)
Record world : Type := mkWorld {
  fetch : nat -> request -> result response;
  unzip : nat -> jsval -> stream -> result unit;
  body_flow : nat -> stream -> flow
}.

Record options : Type := mkOptions {
  apiBase : string;
  gitlabApiToken : string
}.

Definition artifact_url (apiBase : string)
           (projectId jobName : option string) : string :=
  (apiBase ++ "/api/v4/projects/" ++ tmpl projectId
           ++ "/jobs/artifacts/master/download?job=" ++ tmpl jobName)%string.

(** [getArtifact]: the requests it issues and how its promise settles. *)
Definition getArtifact (fetch : request -> result response)
           (apiBase token : string) (projectId jobName : option string)
  : list request * result stream :=
  let url := artifact_url apiBase projectId jobName in
  let req := mkRequest "GET" url [("PRIVATE-TOKEN", token)] in
  ([req],
   match fetch req with
   | Throw e => Throw e
   | Ok response =>
       if negb (status response =? 200)%Z
       then Throw (Error (statusText response ++ " from " ++ url ++ ".")%string)
       else Ok (body response)
   end).

(** How an awaited promise ends for the task that awaits it. *)
Inductive ending : Type :=
| Resolved
| Failed (e : error)
| Unheard (e : error).

(** [extractArtifact]: the extraction it starts and how its promise ends.
    [resolve] listens for ['finish'] on the unzip stream and [reject] for
    ['error'] on it; [artifact.pipe(unzip)] returns [unzip], so the second
    [.on('error', reject)] is on the unzip stream again and nothing listens
    to the artifact stream.  When that stream emits ['error'] the unzip
    stream is never ended, the promise never settles, and the event has no
    listener ([Unheard]). *)
Definition extractArtifact (unzip : jsval -> stream -> result unit)
           (flow : stream -> flow)
           (destinationDir : jsval) (artifact : stream)
  : (jsval * stream) * ending :=
  ((destinationDir, artifact),
   match flow artifact with
   | Ends => match unzip destinationDir artifact with
             | Ok _ => Resolved
             | Throw e => Failed e
             end
   | Errors e => Unheard e
   end).

(** ** The per-link tasks *)

Record state : Type := mkState {
  tree : node;
  vFile : vfile;
  calls : list request;
  unzips : list (jsval * stream)
}.

(** Where a task is suspended, with the way the awaited promise ends.  A
    task is [Stuck] once the body stream it pipes has emitted an ['error']
    nobody listens to: its promise stays pending, and Node throws the error,
    which ends the process. *)
Inductive phase : Type :=
| AwaitArtifact (a : result stream)
| AwaitExtract (x : ending)
| Settled
| Stuck (unheard : error).

Record task : Type := mkTask {
  t_index : nat;
  t_node : path;
  t_position : option position;
  t_projectId : option string;
  t_jobName : option string;
  t_phase : phase
}.

Definition set_phase (t : task) (ph : phase) : task :=
  mkTask (t_index t) (t_node t) (t_position t) (t_projectId t) (t_jobName t) ph.

(** The body of the [async (node) => ...] callback up to its first [await]:
    it runs inside [nodes.map], before any task is resumed. *)
Definition start_task (w : world) (opts : options) (k : nat)
           (x : path * node) : result task * list request :=
  let title := node_title (snd x) in
  let position := node_position (snd x) in
  match js_split title with
  | Throw e => (Throw e, [])
  | Ok segs =>
      let projectId := nth_error segs 1 in
      let jobName := nth_error segs 2 in
      let '(reqs, a) := getArtifact (fetch w k) (apiBase opts)
                                    (gitlabApiToken opts) projectId jobName in
      (Ok (mkTask k (fst x) position projectId jobName (AwaitArtifact a)), reqs)
  end.

(** What [nodes.map] leaves behind: the suspended tasks, the requests issued,
    and the first rejection among the promises, if any. *)
Record dispatched : Type := mkDispatched {
  d_tasks : list task;
  d_calls : list request;
  d_rejected : option error
}.

Fixpoint start_tasks (w : world) (opts : options) (k : nat)
         (nodes : list (path * node)) : dispatched :=
  match nodes with
  | [] => mkDispatched [] [] None
  | x :: nodes' =>
      let d := start_tasks w opts (S k) nodes' in
      match start_task w opts k x with
      | (Ok t, reqs) =>
          mkDispatched (t :: d_tasks d) (reqs ++ d_calls d) (d_rejected d)
      | (Throw e, reqs) =>
          mkDispatched (d_tasks d) (reqs ++ d_calls d) (Some e)
      end
  end.

(** One resumption of a suspended task: the code between two [await]s, or
    from the last [await] to the end of the callback. *)
Definition resume (w : world) (t : task) (st : state) : task * state :=
  match t_phase t with
  | AwaitArtifact (Ok artifact) =>
      let destinationDir := getDestinationDir (vFile st) in
      let '(started, x) :=
        extractArtifact (unzip w (t_index t)) (body_flow w (t_index t))
                        destinationDir artifact in
      (set_phase t (AwaitExtract x),
       mkState (tree st) (vFile st) (calls st) (unzips st ++ [started]))
  | AwaitExtract Resolved =>
      (set_phase t Settled,
       mkState (assign_title (t_node t) (JStr "") (tree st))
               (vfile_info ("artifacts fetched from " ++ tmpl (t_projectId t)
                              ++ " " ++ tmpl (t_jobName t))%string
                           (t_position t) PLUGIN_NAME (vFile st))
               (calls st) (unzips st))
  | AwaitArtifact (Throw error) | AwaitExtract (Failed error) =>
      (set_phase t Settled,
       mkState (tree st)
               (vfile_message error (t_position t) PLUGIN_NAME (vFile st))
               (calls st) (unzips st))
  | AwaitExtract (Unheard error) => (set_phase t (Stuck error), st)
  | Settled | Stuck _ => (t, st)
  end.

Fixpoint update {A : Type} (j : nat) (a : A) (l : list A) : list A :=
  match l, j with
  | [], _ => []
  | _ :: l', O => a :: l'
  | x :: l', S j' => x :: update j' a l'
  end.

(** The error that went unheard, if one did. *)
Fixpoint uncaught (tasks : list task) : option error :=
  match tasks with
  | [] => None
  | t :: tasks' =>
      match t_phase t with
      | Stuck e => Some e
      | _ => uncaught tasks'
      end
  end.

(** The event loop resumes the [j]-th suspended task, unless an ['error']
    event without a listener has ended the process (Node throws it). *)
Definition advance (w : world) (j : nat) (c : list task * state)
  : list task * state :=
  match uncaught (fst c) with
  | Some _ => c
  | None =>
      match nth_error (fst c) j with
      | None => c
      | Some t =>
          let '(t', st') := resume w t (snd c) in (update j t' (fst c), st')
      end
  end.

(** A schedule lists the tasks in the order the event loop resumes them. *)
Definition exec (w : world) (sched : list nat) (c : list task * state)
  : list task * state :=
  fold_left (fun c j => advance w j c) sched c.

Definition is_settled (t : task) : bool :=
  match t_phase t with Settled => true | _ => false end.

(** How a promise stands when nothing more can happen: a promise that is
    still pending then will never settle, and comes with the error that went
    unheard, if that is why. *)
Inductive promise (A : Type) : Type :=
| Fulfilled (a : A)
| Rejected (e : error)
| Pending (unheard : option error).
Arguments Fulfilled {A} a.
Arguments Rejected {A} e.
Arguments Pending {A} unheard.

(** [Promise.all] on tasks none of which was rejected: it is fulfilled once
    every task has run to its end, so whatever the schedule did, each task
    still gets the (at most two) resumptions it needs. *)
Definition await_all (w : world) (sched : list nat) (c : list task * state)
  : list task * state :=
  let n := List.length (fst c) in
  exec w (sched ++ seq 0 n ++ seq 0 n) c.

(** ** The scanner and the transformer *)

Definition MARKER : string := "gitlab-artifact|".

(** The visitor passed to [visit]: it pushes the node when its title is
    truthy and [indexOf] finds the marker. *)
Definition collect (x : path * node) (nodes : list (path * node))
  : result (list (path * node)) :=
  let title := node_title (snd x) in
  if negb (truthy title) then Ok nodes
  else match js_indexOf title MARKER with
       | Throw e => Throw e
       | Ok i => if (i =? -1)%Z then Ok nodes else Ok (nodes ++ [x])
       end.

Definition scan (ast : node) : result (list (path * node)) :=
  visit ast "link" collect [].

(** [visitLink]: the state it leaves and how it ends, a throw of its own
    counting as a rejection.  When a task is rejected in [nodes.map],
    [Promise.all] rejects while the other tasks are still running: the
    schedule then says how far they got by the time the rejection is
    observed.  Otherwise [Promise.all] is fulfilled when every task has
    ended, and stays pending when one never does. *)
Definition visitLink (w : world) (sched : list nat) (opts : options)
           (st : state) : state * promise unit :=
  match scan (tree st) with
  | Throw e => (st, Rejected e)
  | Ok [] => (st, Fulfilled tt)
  | Ok nodes =>
      let d := start_tasks w opts 0 nodes in
      let st1 := mkState (tree st) (vFile st) (calls st ++ d_calls d)
                         (unzips st) in
      match d_rejected d with
      | Some e => (snd (exec w sched (d_tasks d, st1)), Rejected e)
      | None =>
          let c := await_all w sched (d_tasks d, st1) in
          (snd c,
           if forallb is_settled (fst c) then Fulfilled tt
           else Pending (uncaught (fst c)))
      end
  end.

(** What the transformer hands back: the [ast] object itself, or whatever
    [next] returned. *)
Inductive returned : Type :=
| ReturnedAst
| ReturnedByNext (v : jsval).

Definition callback : Type := state -> state * result jsval.

(** [transformer]: [await visitLink(...)] inside [try]/[catch], then [next]
    or [return ast].  While the awaited promise is pending the transformer
    does not get past the [await]. *)
Definition transformer (w : world) (sched : list nat) (opts : options)
           (next : option callback) (st : state) : state * promise returned :=
  let st' := fst (visitLink w sched opts st) in
  match snd (visitLink w sched opts st) with
  | Pending unheard => (st', Pending unheard)
  | Fulfilled _ | Rejected _ =>
      match next with
      | Some k =>
          match k st' with
          | (st'', Ok v) => (st'', Fulfilled (ReturnedByNext v))
          | (st'', Throw e) => (st'', Rejected e)
          end
      | None => (st', Fulfilled ReturnedAst)
      end
  end.

Definition gitlabArtifact (w : world) (sched : list nat) (opts : options)
  : option callback -> state -> state * promise returned :=
  transformer w sched opts.

(** ** Derived notions used to state the properties *)

(** Induction on trees, with the property available for every child. *)
Section NodeInduction.
Variable P : node -> Prop.
Hypothesis step :
  forall ty ti po cs, Forall P cs -> P (Node ty ti po cs).

Fixpoint node_induction (n : node) : P n :=
  match n with
  | Node ty ti po cs =>
      step ty ti po cs
           ((fix all (cs : list node) : Forall P cs :=
               match cs with
               | [] => Forall_nil P
               | c :: cs' => Forall_cons c (node_induction c) (all cs')
               end) cs)
  end.
End NodeInduction.

(** Whether the visitor pushes a node with this title. *)
Definition title_matches (title : jsval) : result bool :=
  if negb (truthy title) then Ok false
  else match js_indexOf title MARKER with
       | Throw e => Throw e
       | Ok i => Ok (negb (i =? -1)%Z)
       end.

Definition is_link (x : path * node) : bool := (node_type (snd x) =? "link").

Definition collected (x : path * node) : bool :=
  is_link x &&
  match title_matches (node_title (snd x)) with
  | Ok b => b
  | Throw _ => false
  end.

(** The reference a link's title encodes: the second and third of its
    [|]-separated segments. *)
Definition link_reference (n : node) : option string * option string :=
  match js_split (node_title n) with
  | Ok segs => (nth_error segs 1, nth_error segs 2)
  | Throw _ => (None, None)
  end.

Definition link_url (opts : options) (n : node) : string :=
  artifact_url (apiBase opts) (fst (link_reference n)) (snd (link_reference n)).

Definition link_request (opts : options) (n : node) : request :=
  mkRequest "GET" (link_url opts n) [("PRIVATE-TOKEN", gitlabApiToken opts)].

(** How [getArtifact] settles for the [k]-th collected link. *)
Definition link_artifact (w : world) (opts : options) (k : nat) (n : node)
  : result stream :=
  snd (getArtifact (fetch w k) (apiBase opts) (gitlabApiToken opts)
                   (fst (link_reference n)) (snd (link_reference n))).

(** The task [nodes.map] starts for the [k]-th collected link when its title
    is a string. *)
Definition link_task (w : world) (opts : options) (k : nat)
           (x : path * node) : task :=
  mkTask k (fst x) (node_position (snd x))
         (fst (link_reference (snd x))) (snd (link_reference (snd x)))
         (AwaitArtifact (link_artifact w opts k (snd x))).

(** The ending a task that has not finished is heading for, extraction
    going to [dest]. *)
Definition eventual (w : world) (dest : jsval) (t : task) : option ending :=
  match t_phase t with
  | AwaitArtifact (Ok artifact) =>
      Some (snd (extractArtifact (unzip w (t_index t)) (body_flow w (t_index t))
                                 dest artifact))
  | AwaitArtifact (Throw e) => Some (Failed e)
  | AwaitExtract x => Some x
  | Settled | Stuck _ => None
  end.

(** The diagnostic entry a task records when it ends with [x]: none when it
    never gets past its [await]. *)
Definition entry_of (t : task) (x : ending) : list vmessage :=
  match x with
  | Resolved => [mkMessage KInfo
                           ("artifacts fetched from " ++ tmpl (t_projectId t)
                              ++ " " ++ tmpl (t_jobName t))%string
                           (t_position t) None (Some PLUGIN_NAME)]
  | Failed e => [mkMessage KError (error_message e) (t_position t)
                           None (Some PLUGIN_NAME)]
  | Unheard _ => []
  end.

Definition pending_entry (w : world) (dest : jsval) (t : task)
  : list vmessage :=
  match eventual w dest t with
  | Some x => entry_of t x
  | None => []
  end.

Definition pending_unzip (dest : jsval) (t : task) : list (jsval * stream) :=
  match t_phase t with
  | AwaitArtifact (Ok artifact) => [(dest, artifact)]
  | _ => []
  end.

Definition will_clear (w : world) (dest : jsval) (t : task) : bool :=
  match eventual w dest t with
  | Some Resolved => true
  | _ => false
  end.

Definition clears (w : world) (dest : jsval) (tasks : list task) (q : path)
  : bool :=
  existsb (fun t => will_clear w dest t && path_eqb (t_node t) q) tasks.

(** An upper bound on the resumptions a task still needs. *)
Definition steps_left (t : task) : nat :=
  match t_phase t with
  | AwaitArtifact _ => 2
  | AwaitExtract _ => 1
  | Settled | Stuck _ => 0
  end.

(** How the [try] block of the [k]-th collected link ends: [Resolved] when
    the artifact was fetched and extracted, [Failed] with the error its
    [catch] receives, [Unheard] when the extraction never settles. *)
Definition link_result (w : world) (opts : options) (dest : jsval) (k : nat)
           (n : node) : ending :=
  match link_artifact w opts k n with
  | Ok artifact =>
      snd (extractArtifact (unzip w k) (body_flow w k) dest artifact)
  | Throw e => Failed e
  end.

(** The entry the [k]-th collected link ends up recording, if any. *)
Definition link_entry (w : world) (opts : options) (dest : jsval) (k : nat)
           (x : path * node) : list vmessage :=
  entry_of (link_task w opts k x) (link_result w opts dest k (snd x)).

(** Whether the body stream of the [k]-th collected link, if its request is
    answered with one, ends. *)
Definition stream_ends (w : world) (opts : options) (k : nat) (n : node)
  : bool :=
  match link_artifact w opts k n with
  | Ok artifact => match body_flow w k artifact with
                   | Ends => true
                   | Errors _ => false
                   end
  | Throw _ => true
  end.

(** Whether every body stream a run pipes ends. *)
Definition streams_end (w : world) (opts : options)
           (nodes : list (path * node)) : bool :=
  forallb (fun b : bool => b)
          (imap (fun k x => stream_ends w opts k (snd x)) 0 nodes).

(** Whether a task can still raise an error nobody listens to. *)
Definition heard (w : world) (t : task) : bool :=
  match t_phase t with
  | AwaitArtifact (Ok artifact) =>
      match body_flow w (t_index t) artifact with
      | Ends => true
      | Errors _ => false
      end
  | AwaitExtract (Unheard _) | Stuck _ => false
  | _ => true
  end.

(** The extraction the [k]-th collected link starts, if it gets that far. *)
Definition link_unzip (w : world) (opts : options) (dest : jsval) (k : nat)
           (x : path * node) : list (jsval * stream) :=
  match link_artifact w opts k (snd x) with
  | Ok artifact => [(dest, artifact)]
  | Throw _ => []
  end.

(** A configuration in which no error has gone, or can go, unheard. *)
Definition calm (w : world) (c : list task * state) : Prop :=
  forall t, In t (fst c) -> heard w t = true.

Definition with_calls (c : list request) (st : state) : state :=
  mkState (tree st) (vFile st) c (unzips st).

(** [carries msg part]: the text [part] occurs in [msg]. *)
Definition carries (msg part : string) : Prop :=
  exists a b, msg = (a ++ part ++ b)%string.

(** What stays true while the tasks run, whatever the order: the entries
    recorded so far together with those still to come are the entries [T];
    likewise the extractions started and still to start are [U]; clearing the
    titles still to be cleared gives the tree [FT]. *)
Definition on_course (w : world) (dest : jsval)
           (m0 : list vmessage) (u0 : list (jsval * stream))
           (c0 : list request)
           (T : list vmessage) (U : list (jsval * stream)) (FT : node)
           (c : list task * state) : Prop :=
  getDestinationDir (vFile (snd c)) = dest /\
  (exists l, messages (vFile (snd c)) = m0 ++ l /\
             Permutation (l ++ flat_map (pending_entry w dest) (fst c)) T) /\
  (exists u, unzips (snd c) = u0 ++ u /\
             Permutation (u ++ flat_map (pending_unzip dest) (fst c)) U) /\
  clear_titles (clears w dest (fst c)) (tree (snd c)) = FT /\
  calls (snd c) = c0.

(** ** Sample documents and environments *)

Definition sample_position : option position := Some (mkPosition 3 1 3 58).

Definition text_node : node := Node "text" JUndefined None [].

Definition link_node (title : jsval) : node :=
  Node "link" title sample_position [text_node].

Definition document (links : list node) : node :=
  Node "root" JUndefined None [Node "paragraph" JUndefined None links].

(** [# This is a demo] *)
Definition demo_document : node :=
  Node "root" JUndefined None
       [Node "heading" JUndefined None [text_node]].

Definition sample_vfile : vfile := mkVFile (JStr "/out") (JStr "/src") [].

Definition initial (ast : node) : state := mkState ast sample_vfile [] [].

Definition sample_options : options :=
  mkOptions "https://src.temando.io" "secret".

(** GitLab answers every request with the same response, every body stream
    ends, and the extractor always ends the same way. *)
Definition constant_world (r : result response) (x : result unit) : world :=
  mkWorld (fun _ _ => r) (fun _ _ _ => x) (fun _ _ => Ends).

Definition world_ok : world :=
  constant_world (Ok (mkResponse 200 "OK" "PK")) (Ok tt).

Definition world_not_found : world :=
  constant_world (Ok (mkResponse 404 "Not Found" "")) (Ok tt).

Definition world_bad_archive : world :=
  constant_world (Ok (mkResponse 200 "OK" "PK"))
                 (Throw (Error "invalid signature")).

Definition fixture_title : string := "gitlab-artifact|1095|build:docs".

(** [[docs](docs/index.html "gitlab-artifact|1095|build:docs")] *)
Definition fixture_link : node := link_node (JStr fixture_title).

Definition fixture : node := document [fixture_link].

Definition malformed_link : node :=
  link_node (JStr "gitlab-artifact|onlyOneField").

(** Whether every collected link's task succeeds. *)
Definition all_succeed (w : world) (opts : options) (dest : jsval)
           (nodes : list (path * node)) : bool :=
  forallb (fun b : bool => b)
          (imap (fun k x => match link_result w opts dest k (snd x) with
                            | Resolved => true
                            | _ => false
                            end) 0 nodes).

(** ** Further notions *)

(** Whether the character [c] occurs in [s]. *)
Fixpoint has_char (c : ascii) (s : string) : bool :=
  match s with
  | EmptyString => false
  | String d s' => Ascii.eqb d c || has_char c s'
  end.

(** The requests [nodes.map] issues: one for every collected node on whose
    title [split] can be called, in the order of the nodes. *)
Definition requests_for (opts : options) (nodes : list (path * node))
  : list request :=
  flat_map (fun x => match js_split (node_title (snd x)) with
                     | Ok _ => [link_request opts (snd x)]
                     | Throw _ => []
                     end) nodes.

(** The collected links whose task ends in its [catch]. *)
Definition failed_links (w : world) (opts : options) (dest : jsval)
           (nodes : list (path * node)) : list (path * node) :=
  List.concat (imap (fun k x => match link_result w opts dest k (snd x) with
                                | Failed _ => [x]
                                | _ => []
                                end) 0 nodes).

(** The extraction the [k]-th collected link starts, read off what [fetch]
    answers. *)
Definition extraction_for (w : world) (opts : options) (dest : jsval)
           (k : nat) (x : path * node) : list (jsval * stream) :=
  match fetch w k (link_request opts (snd x)) with
  | Ok response =>
      if (status response =? 200)%Z then [(dest, body response)] else []
  | Throw _ => []
  end.

Definition second_link : node := link_node (JStr "gitlab-artifact|7|lint").

Definition two_links : node := document [fixture_link; second_link].

(** The first request is answered [404], every other one [200]. *)
Definition world_first_fails : world :=
  mkWorld (fun k _ => if (k =? 0)%nat
                      then Ok (mkResponse 404 "Not Found" "")
                      else Ok (mkResponse 200 "OK" "PK"))
          (fun _ _ _ => Ok tt) (fun _ _ => Ends).

(** Every request is answered [200], and the body stream of the first
    response breaks off with an error. *)
Definition world_body_error : world :=
  mkWorld (fun _ _ => Ok (mkResponse 200 "OK" "PK"))
          (fun _ _ _ => Ok tt)
          (fun k _ => if (k =? 0)%nat then Errors (Error "aborted") else Ends).

(** The reference syntax in the spec's words: exactly three fields separated
    by [|], the first being the literal [gitlab-artifact]. *)
Definition spec_reference_syntax (title : jsval) : bool :=
  match title with
  | JStr s => match str_split "|"%char s with
              | [marker; _; _] => (marker =? "gitlab-artifact")
              | _ => false
              end
  | _ => false
  end.

Definition is_error_entry (m : vmessage) : bool :=
  match m_kind m with KError => true | KInfo => false end.

(** What the scanner and the tasks read of a collected node. *)
Definition link_view (x : path * node) : path * jsval * option position :=
  (fst x, node_title (snd x), node_position (snd x)).

(** * Properties *)

(** ** Strings *)

Lemma prefix_spec (p s : string) :
  prefix p s = true <-> exists b, s = (p ++ b)%string.
Proof.
  revert s; induction p as [|a p IH]; intros s.
  - split; [intros _; exists s; reflexivity | intros _; destruct s; reflexivity].
  - destruct s as [|c s]; simpl.
    + split; [discriminate | intros [b Hb]; discriminate].
    + destruct (ascii_dec a c) as [->|Hne].
      * rewrite IH. split; intros [b Hb]; exists b; [rewrite Hb; reflexivity|].
        now inversion Hb.
      * split; [discriminate | intros [b Hb]; inversion Hb; congruence].
Qed.

Lemma indexOf_from_eq (needle hay : string) (i : nat) :
  indexOf_from needle hay i =
  if prefix needle hay then Z.of_nat i
  else match hay with
       | EmptyString => (-1)%Z
       | String _ hay' => indexOf_from needle hay' (S i)
       end.
Proof. destruct hay; reflexivity. Qed.

(** [indexOf] misses exactly when the needle does not occur. *)
Lemma indexOf_from_found (needle hay : string) (i : nat) :
  indexOf_from needle hay i <> (-1)%Z <->
  exists a b, hay = (a ++ needle ++ b)%string.
Proof.
  split.
  - revert i; induction hay as [|c hay IH]; intros i H;
      rewrite indexOf_from_eq in H;
      destruct (prefix needle _) eqn:E; try congruence.
    + apply prefix_spec in E. destruct E as [b Hb]. now exists "", b.
    + apply prefix_spec in E. destruct E as [b Hb]. now exists "", b.
    + apply IH in H. destruct H as (a & b & ->).
      now exists (String c a), b.
  - intros (a & b & ->). revert i; induction a as [|c a IH]; intros i;
      rewrite indexOf_from_eq.
    + assert (E : prefix needle ("" ++ needle ++ b) = true)
        by (apply prefix_spec; now exists b).
      rewrite E. lia.
    + change (String c a ++ needle ++ b)%string
        with (String c (a ++ needle ++ b)).
      destruct (prefix needle (String c (a ++ needle ++ b))); [lia|].
      apply IH.
Qed.

Lemma str_indexOf_found (hay needle : string) :
  (str_indexOf hay needle =? -1)%Z = false <->
  exists a b, hay = (a ++ needle ++ b)%string.
Proof.
  unfold str_indexOf. rewrite Z.eqb_neq. apply indexOf_from_found.
Qed.

Lemma str_split_nonempty (sep : ascii) (s : string) : str_split sep s <> [].
Proof.
  destruct s as [|c s]; simpl; [discriminate|].
  destruct (Ascii.eqb c sep); [discriminate|].
  destruct (str_split sep s); discriminate.
Qed.

(** Joining the segments with the separator gives the string back. *)
Lemma str_split_join (sep : ascii) (s : string) :
  String.concat (String sep "") (str_split sep s) = s.
Proof.
  induction s as [|c s IH]; simpl; [reflexivity|].
  destruct (Ascii.eqb c sep) eqn:E.
  - apply Ascii.eqb_eq in E; subst c.
    pose proof (str_split_nonempty sep s) as Hne.
    destruct (str_split sep s) as [|x xs]; [congruence|].
    simpl in *. now rewrite IH.
  - pose proof (str_split_nonempty sep s) as Hne.
    destruct (str_split sep s) as [|x xs]; [congruence|].
    simpl in *. destruct xs; simpl in *; now rewrite <- IH.
Qed.

(** A string in which the separator occurs has at least two segments. *)
Lemma str_split_two (sep : ascii) (a b : string) :
  exists x y rest, str_split sep (a ++ String sep b) = x :: y :: rest.
Proof.
  induction a as [|c a IH]; simpl.
  - rewrite Ascii.eqb_refl.
    pose proof (str_split_nonempty sep b) as Hne.
    destruct (str_split sep b) as [|y rest]; [congruence|].
    now exists "", y, rest.
  - destruct IH as (x & y & rest & ->).
    destruct (Ascii.eqb c sep); [now exists "", x, (y :: rest)|].
    now exists (String c x), y, rest.
Qed.

Lemma append_assoc (a b c : string) :
  ((a ++ b) ++ c = a ++ (b ++ c))%string.
Proof. induction a as [|x a IH]; simpl; [reflexivity | now rewrite IH]. Qed.

(** A title containing the marker always has a second segment. *)
Lemma marker_second_segment (a b : string) :
  exists x, nth_error (str_split "|"%char (a ++ MARKER ++ b)) 1 = Some x.
Proof.
  change (MARKER ++ b)%string
    with ("gitlab-artifact" ++ String "|"%char b)%string.
  rewrite <- append_assoc.
  destruct (str_split_two "|"%char (a ++ "gitlab-artifact") b)
    as (x & y & rest & ->).
  now exists y.
Qed.

(** ** Lists with indices *)

Section Indexed.
Context {A B : Type}.

Lemma nth_error_imap (f : nat -> A -> B) (l : list A) (b k : nat) :
  nth_error (imap f b l) k = option_map (f (b + k)) (nth_error l k).
Proof.
  revert b k; induction l as [|a l IH]; intros b k.
  - now destruct k.
  - destruct k as [|k]; simpl.
    + now rewrite Nat.add_0_r.
    + rewrite IH. now rewrite Nat.add_succ_r.
Qed.

Lemma imap_ext (f g : nat -> A -> B) (l : list A) (b : nat) :
  (forall k a, nth_error l k = Some a -> f (b + k) a = g (b + k) a) ->
  imap f b l = imap g b l.
Proof.
  revert b; induction l as [|a l IH]; intros b H; simpl; [reflexivity|].
  f_equal.
  - specialize (H 0 a eq_refl). now rewrite Nat.add_0_r in H.
  - apply IH. intros k x Hk. specialize (H (S k) x Hk).
    now rewrite Nat.add_succ_r in H.
Qed.

Lemma modify_imap (h : B -> B) (f : nat -> A -> B) (l : list A) (b j : nat) :
  modify j h (imap f b l) =
  imap (fun i a => if (i =? b + j)%nat then h (f i a) else f i a) b l.
Proof.
  revert b j; induction l as [|a l IH]; intros b j.
  - now destruct j.
  - destruct j as [|j]; simpl.
    + rewrite Nat.add_0_r, Nat.eqb_refl. f_equal.
      apply (imap_ext f). intros k x _.
      destruct (Nat.eqb_spec (S b + k) b); [lia | reflexivity].
    + destruct (Nat.eqb_spec b (b + S j)); [lia|]. f_equal.
      rewrite IH. apply imap_ext. intros k x _.
      now replace (S b + j) with (b + S j) by lia.
Qed.

Lemma in_concat_imap (f : nat -> A -> list B) (l : list A) (b : nat) (x : B) :
  In x (List.concat (imap f b l)) <->
  exists k a, nth_error l k = Some a /\ In x (f (b + k) a).
Proof.
  revert b; induction l as [|a l IH]; intros b; simpl.
  - split; [contradiction | intros (k & a & Hk & _); now destruct k].
  - rewrite in_app_iff, IH. split.
    + intros [H | (k & c & Hk & H)].
      * exists 0, a. now rewrite Nat.add_0_r.
      * exists (S k), c. now rewrite Nat.add_succ_r.
    + intros (k & c & Hk & H). destruct k as [|k].
      * left. inversion Hk; subst. now rewrite Nat.add_0_r in H.
      * right. exists k, c. now rewrite Nat.add_succ_r in H.
Qed.
End Indexed.

Lemma map_modify {A B : Type} (g : A -> B) (h : A -> A) (l : list A) (j : nat) :
  (forall a, nth_error l j = Some a -> g (h a) = g a) ->
  map g (modify j h l) = map g l.
Proof.
  revert j; induction l as [|a l IH]; intros j H; [now destruct j|].
  destruct j as [|j]; simpl.
  - now rewrite (H a eq_refl).
  - f_equal. apply IH. intros x Hx. now apply H.
Qed.

Lemma map_imap {A B C : Type} (g : B -> C) (f : nat -> A -> B)
      (l : list A) (b : nat) :
  map g (imap f b l) = imap (fun i a => g (f i a)) b l.
Proof. revert b; induction l as [|a l IH]; intros b; simpl; [|rewrite IH]; reflexivity. Qed.

Lemma imap_imap {A B C : Type} (g : nat -> B -> C) (f : nat -> A -> B)
      (l : list A) (b : nat) :
  imap g b (imap f b l) = imap (fun i a => g i (f i a)) b l.
Proof. revert b; induction l as [|a l IH]; intros b; simpl; [|rewrite IH]; reflexivity. Qed.

Lemma imap_const_map {A B : Type} (g : A -> B) (l : list A) (b : nat) :
  imap (fun _ a => g a) b l = map g l.
Proof. revert b; induction l as [|a l IH]; intros b; simpl; [|rewrite IH]; reflexivity. Qed.

Lemma path_eqb_eq (p q : path) : path_eqb p q = true <-> p = q.
Proof.
  revert q; induction p as [|i p IH]; intros [|j q]; simpl;
    try (split; [discriminate | discriminate]); [tauto|].
  rewrite andb_true_iff, Nat.eqb_eq, IH.
  split; [intros [-> ->]; reflexivity | intros H; now inversion H].
Qed.

Lemma path_eqb_refl (p : path) : path_eqb p p = true.
Proof. now apply path_eqb_eq. Qed.

(** ** The tree *)

Lemma Forall_nth_error {A : Type} (P : A -> Prop) (l : list A) (k : nat) (a : A) :
  Forall P l -> nth_error l k = Some a -> P a.
Proof.
  intros H Hk. rewrite Forall_forall in H. apply H.
  eapply nth_error_In; eassumption.
Qed.

Lemma preorder_get (t : node) (p : path) (n : node) :
  In (p, n) (preorder t) -> get_node p t = Some n.
Proof.
  revert p n; induction t as [ty ti po cs IH] using node_induction.
  intros p n [H | H].
  - now inversion H.
  - apply in_concat_imap in H. destruct H as (k & c & Hk & H).
    apply in_map_iff in H. destruct H as ([q m] & Heq & H).
    simpl in Hk, Heq. inversion Heq; subst. simpl. rewrite Hk.
    eapply (Forall_nth_error _ _ _ _ IH Hk). exact H.
Qed.

Lemma node_title_clear (sel : path -> bool) (n : node) :
  node_title (clear_titles sel n) =
  if sel [] then JStr "" else node_title n.
Proof. now destruct n. Qed.

Lemma node_type_clear (sel : path -> bool) (n : node) :
  node_type (clear_titles sel n) = node_type n.
Proof. now destruct n. Qed.

Lemma clear_titles_ext (sel sel' : path -> bool) (t : node) :
  (forall q, sel q = sel' q) -> clear_titles sel t = clear_titles sel' t.
Proof.
  revert sel sel'; induction t as [ty ti po cs IH] using node_induction.
  intros sel sel' H. simpl. rewrite H. f_equal.
  apply imap_ext. intros k c Hk.
  apply (Forall_nth_error _ _ _ _ IH Hk). intros q. apply H.
Qed.

Lemma clear_titles_none (sel : path -> bool) (t : node) :
  (forall q, sel q = false) -> clear_titles sel t = t.
Proof.
  revert sel; induction t as [ty ti po cs IH] using node_induction.
  intros sel H. simpl. rewrite H. f_equal.
  rewrite <- (map_id cs) at 2. rewrite <- (imap_const_map (fun c => c) cs 0).
  apply imap_ext. intros k c Hk.
  apply (Forall_nth_error _ _ _ _ IH Hk). intros q. apply H.
Qed.

(** Assigning the empty title commutes with, and is absorbed by, clearing. *)
Lemma assign_clear (p : path) (sel : path -> bool) (t : node) :
  assign_title p (JStr "") (clear_titles sel t) =
  clear_titles (fun q => path_eqb p q || sel q) t.
Proof.
  revert p sel; induction t as [ty ti po cs IH] using node_induction.
  intros [|j p] sel; simpl; [reflexivity|].
  f_equal. rewrite modify_imap. apply imap_ext. intros k c Hk. simpl.
  pose proof (Forall_nth_error _ _ _ _ IH Hk) as IHc.
  destruct (Nat.eqb_spec k j) as [->|Hne].
  - rewrite IHc. apply clear_titles_ext. intros q. now rewrite Nat.eqb_refl.
  - apply clear_titles_ext. intros q.
    destruct (Nat.eqb_spec j k); [congruence | reflexivity].
Qed.


Lemma shape_assign (p : path) (v : jsval) (t : node) :
  shape (assign_title p v t) = shape t.
Proof.
  revert p; induction t as [ty ti po cs IH] using node_induction.
  intros [|j p]; simpl; [reflexivity|]. f_equal.
  apply map_modify. intros c Hc. apply (Forall_nth_error _ _ _ _ IH Hc).
Qed.

Lemma get_node_clear (p : path) (sel : path -> bool) (t : node) :
  get_node p (clear_titles sel t) =
  option_map (clear_titles (fun q => sel (p ++ q))) (get_node p t).
Proof.
  revert sel t; induction p as [|i p IH]; intros sel t.
  - reflexivity.
  - destruct t as [ty ti po cs]. simpl. rewrite nth_error_imap.
    destruct (nth_error cs i) as [c|]; simpl; [|reflexivity].
    now rewrite IH.
Qed.

Lemma title_at_clear (p : path) (sel : path -> bool) (t : node) :
  title_at p (clear_titles sel t) =
  option_map (fun ti => if sel p then JStr "" else ti) (title_at p t).
Proof.
  unfold title_at. rewrite get_node_clear.
  destruct (get_node p t) as [n|]; simpl; [|reflexivity].
  now rewrite node_title_clear, app_nil_r.
Qed.

Lemma preorder_clear (sel : path -> bool) (t : node) :
  preorder (clear_titles sel t) =
  map (fun x => (fst x, clear_titles (fun q => sel (fst x ++ q)) (snd x)))
      (preorder t).
Proof.
  revert sel; induction t as [ty ti po cs IH] using node_induction.
  intros sel. simpl. apply f_equal.
  rewrite concat_map, map_imap, imap_imap. apply f_equal.
  apply imap_ext. intros k c Hk.
  rewrite (Forall_nth_error _ _ _ _ IH Hk). rewrite !map_map. reflexivity.
Qed.

Lemma NoDup_concat_imap {A B : Type} (f : nat -> A -> list B)
      (l : list A) (b : nat) :
  (forall k a, nth_error l k = Some a -> NoDup (f (b + k) a)) ->
  (forall k1 k2 a1 a2 x,
      nth_error l k1 = Some a1 -> nth_error l k2 = Some a2 ->
      In x (f (b + k1) a1) -> In x (f (b + k2) a2) -> k1 = k2) ->
  NoDup (List.concat (imap f b l)).
Proof.
  revert b; induction l as [|a l IH]; intros b Hnd Hdisj; simpl.
  - constructor.
  - apply NoDup_app.
    + specialize (Hnd 0 a eq_refl). now rewrite Nat.add_0_r in Hnd.
    + apply IH.
      * intros k c Hk. specialize (Hnd (S k) c Hk).
        now rewrite Nat.add_succ_r in Hnd.
      * intros k1 k2 a1 a2 x H1 H2 I1 I2.
        assert (S k1 = S k2) as E; [|now inversion E].
        apply (Hdisj (S k1) (S k2) a1 a2 x); try assumption;
          now rewrite Nat.add_succ_r.
    + intros x Hx Hin. apply in_concat_imap in Hin.
      destruct Hin as (k & c & Hk & Hin).
      assert (0 = S k) as E; [|discriminate].
      apply (Hdisj 0 (S k) a c x); try assumption; try reflexivity.
      * now rewrite Nat.add_0_r.
      * now rewrite Nat.add_succ_r.
Qed.

Lemma NoDup_map_injective {A B : Type} (f : A -> B) (l : list A) :
  (forall x y, f x = f y -> x = y) -> NoDup l -> NoDup (map f l).
Proof.
  intros Hinj H; induction H as [|a l Hnin Hnd IH]; simpl; constructor.
  - rewrite in_map_iff. intros (y & Hy & Hin). apply Hinj in Hy. now subst.
  - exact IH.
Qed.

(** Distinct node objects have distinct paths. *)
Lemma preorder_paths_NoDup (t : node) : NoDup (map fst (preorder t)).
Proof.
  induction t as [ty ti po cs IH] using node_induction. simpl.
  rewrite concat_map, map_imap.
  rewrite (imap_ext _ (fun i c => map (cons i) (map fst (preorder c)))).
  2:{ intros k c _. rewrite !map_map. reflexivity. }
  constructor.
  - intros Hin. apply in_concat_imap in Hin.
    destruct Hin as (k & c & _ & Hin). apply in_map_iff in Hin.
    destruct Hin as (q & Hq & _). discriminate.
  - apply NoDup_concat_imap.
    + intros k c Hk. apply NoDup_map_injective.
      * intros x y E. now inversion E.
      * apply (Forall_nth_error _ _ _ _ IH Hk).
    + intros k1 k2 a1 a2 x _ _ I1 I2.
      apply in_map_iff in I1. destruct I1 as (q1 & <- & _).
      apply in_map_iff in I2. destruct I2 as (q2 & E & _).
      now inversion E.
Qed.

Lemma mdast_preorder (t : node) (p : path) (n : node) :
  mdast t = true -> In (p, n) (preorder t) ->
  optional_string (node_title n) = true.
Proof.
  revert p n; induction t as [ty ti po cs IH] using node_induction.
  intros p n Hm Hin. simpl in Hm. apply andb_true_iff in Hm.
  destruct Hm as [Hti Hcs]. destruct Hin as [Hin | Hin].
  - inversion Hin; subst. exact Hti.
  - apply in_concat_imap in Hin. destruct Hin as (k & c & Hk & Hin).
    apply in_map_iff in Hin. destruct Hin as ([q m] & Heq & Hin).
    simpl in Hk, Heq. inversion Heq; subst.
    rewrite forallb_forall in Hcs.
    apply (Forall_nth_error _ _ _ _ IH Hk q n); [|exact Hin].
    apply Hcs. eapply nth_error_In; eassumption.
Qed.

(** ** The scanner *)

Lemma collect_title_matches (x : path * node) (nodes : list (path * node)) :
  collect x nodes =
  match title_matches (node_title (snd x)) with
  | Throw e => Throw e
  | Ok true => Ok (nodes ++ [x])
  | Ok false => Ok nodes
  end.
Proof.
  unfold collect, title_matches.
  destruct (negb (truthy (node_title (snd x)))); [reflexivity|].
  destruct (js_indexOf (node_title (snd x)) MARKER) as [i|e]; [|reflexivity].
  now destruct (i =? -1)%Z.
Qed.

(** A walk that completes has pushed exactly the collected nodes, in
    order. *)
Lemma visit_list_collect (l acc nodes : list (path * node)) :
  visit_list "link" collect l acc = Ok nodes ->
  nodes = acc ++ filter collected l.
Proof.
  revert acc; induction l as [|x l IH]; intros acc H; simpl in *.
  - inversion H. now rewrite app_nil_r.
  - unfold collected, is_link.
    destruct (node_type (snd x) =? "link"); simpl.
    + rewrite collect_title_matches in H.
      destruct (title_matches (node_title (snd x))) as [[|]|e];
        [| |discriminate].
      * apply IH in H. now rewrite <- app_assoc in H.
      * now apply IH in H.
    + now apply IH in H.
Qed.

Lemma scan_collected (ast : node) (nodes : list (path * node)) :
  scan ast = Ok nodes -> nodes = filter collected (preorder ast).
Proof. intros H. now apply visit_list_collect in H. Qed.

Lemma scan_in_preorder (ast : node) (nodes : list (path * node)) x :
  scan ast = Ok nodes -> In x nodes -> In x (preorder ast).
Proof.
  intros H Hin. apply scan_collected in H. subst.
  now apply filter_In in Hin.
Qed.

Lemma NoDup_map_filter {A B : Type} (g : A -> B) (f : A -> bool) (l : list A) :
  NoDup (map g l) -> NoDup (map g (filter f l)).
Proof.
  induction l as [|a l IH]; simpl; intros H; [constructor|].
  inversion H as [|? ? Hnin Hnd]; subst.
  destruct (f a); simpl; [constructor|]; auto.
  intros Hin. apply Hnin. apply in_map_iff in Hin.
  destruct Hin as (y & Hy & Hin). apply filter_In in Hin.
  apply in_map_iff. exists y. tauto.
Qed.

Lemma scan_paths_NoDup (ast : node) (nodes : list (path * node)) :
  scan ast = Ok nodes -> NoDup (map fst nodes).
Proof.
  intros H. apply scan_collected in H. subst.
  apply NoDup_map_filter, preorder_paths_NoDup.
Qed.

(** On a well-typed tree the walk never throws. *)
Lemma visit_list_total (l acc : list (path * node)) :
  (forall x, In x l -> optional_string (node_title (snd x)) = true) ->
  exists nodes, visit_list "link" collect l acc = Ok nodes.
Proof.
  revert acc; induction l as [|x l IH]; intros acc H; simpl.
  - now exists acc.
  - destruct (node_type (snd x) =? "link").
    + unfold collect.
      pose proof (H x (or_introl eq_refl)) as Hx.
      destruct (node_title (snd x)); try discriminate; simpl;
        try (apply IH; intros; apply H; now right).
      destruct (negb (s =? "")); [|apply IH; intros; apply H; now right].
      destruct (str_indexOf s MARKER =? -1)%Z;
        apply IH; intros; apply H; now right.
    + apply IH. intros; apply H; now right.
Qed.

Lemma scan_total (ast : node) :
  mdast ast = true -> exists nodes, scan ast = Ok nodes.
Proof.
  intros H. apply visit_list_total. intros [p n] Hin.
  eapply mdast_preorder; eassumption.
Qed.

(** Every node the scanner collects from a well-typed tree carries a string
    title that contains the marker. *)
Lemma scan_titles (ast : node) (nodes : list (path * node)) x :
  mdast ast = true -> scan ast = Ok nodes -> In x nodes ->
  exists a b, node_title (snd x) = JStr (a ++ MARKER ++ b).
Proof.
  intros Hm H Hin. pose proof (scan_in_preorder _ _ _ H Hin) as Hpre.
  apply scan_collected in H. subst. apply filter_In in Hin.
  destruct Hin as [_ Hc]. destruct x as [p n].
  pose proof (mdast_preorder _ _ _ Hm Hpre) as Hopt.
  unfold collected in Hc. apply andb_true_iff in Hc. destruct Hc as [_ Hc].
  unfold title_matches in Hc. simpl in *.
  destruct (node_title n); try discriminate. simpl in Hc.
  destruct (negb (s =? "")); [|discriminate]. simpl in Hc.
  apply negb_true_iff in Hc. apply str_indexOf_found in Hc.
  destruct Hc as (a & b & ->). now exists a, b.
Qed.

Lemma clear_clear (s1 s2 : path -> bool) (t : node) :
  clear_titles s1 (clear_titles s2 t) =
  clear_titles (fun q => s1 q || s2 q) t.
Proof.
  revert s1 s2; induction t as [ty ti po cs IH] using node_induction.
  intros s1 s2. simpl. f_equal.
  - now destruct (s1 []), (s2 []).
  - rewrite imap_imap. apply imap_ext. intros k c Hk.
    apply (Forall_nth_error _ _ _ _ IH Hk).
Qed.

Lemma assign_as_clear (p : path) (t : node) :
  assign_title p (JStr "") t = clear_titles (path_eqb p) t.
Proof.
  rewrite <- (clear_titles_none (fun _ => false) t) at 1 by reflexivity.
  rewrite assign_clear. apply clear_titles_ext. intros q. apply orb_false_r.
Qed.

(** ** Running the tasks *)

Lemma update_split {A : Type} (l1 l2 : list A) (a a' : A) :
  update (List.length l1) a' (l1 ++ a :: l2) = l1 ++ a' :: l2.
Proof. induction l1 as [|x l1 IH]; simpl; [|rewrite IH]; reflexivity. Qed.

Lemma length_update {A : Type} (l : list A) (j : nat) (a : A) :
  List.length (update j a l) = List.length l.
Proof.
  revert j; induction l as [|x l IH]; intros [|j]; simpl;
    try reflexivity. now rewrite IH.
Qed.

Lemma nth_error_update {A : Type} (l : list A) (j i : nat) (a : A) :
  nth_error (update j a l) i =
  if (j =? i)%nat
  then match nth_error l i with Some _ => Some a | None => None end
  else nth_error l i.
Proof.
  revert j i; induction l as [|x l IH]; intros [|j] [|i]; simpl;
    try reflexivity.
  - now destruct (j =? i)%nat.
  - apply IH.
Qed.

Lemma start_task_string (w : world) (opts : options) (k : nat)
      (x : path * node) (s : string) :
  node_title (snd x) = JStr s ->
  start_task w opts k x =
  (Ok (link_task w opts k x), [link_request opts (snd x)]).
Proof.
  intros H. unfold start_task, link_task, link_artifact, link_request,
    link_url, link_reference. rewrite H. reflexivity.
Qed.

Lemma start_tasks_strings (w : world) (opts : options) (k : nat)
      (nodes : list (path * node)) :
  (forall x, In x nodes -> exists s, node_title (snd x) = JStr s) ->
  start_tasks w opts k nodes =
  mkDispatched (imap (link_task w opts) k nodes)
               (map (fun x => link_request opts (snd x)) nodes) None.
Proof.
  revert k; induction nodes as [|x nodes IH]; intros k H; simpl.
  - reflexivity.
  - destruct (H x (or_introl eq_refl)) as [s Hs].
    rewrite (start_task_string _ _ _ _ _ Hs).
    rewrite IH by (intros; apply H; now right). reflexivity.
Qed.

Section Running.
Variable w : world.
Variable dest : jsval.

Lemma clears_app (l1 l2 : list task) (t : task) (q : path) :
  clears w dest (l1 ++ t :: l2) q =
  clears w dest l1 q
  || (will_clear w dest t && path_eqb (t_node t) q || clears w dest l2 q).
Proof. unfold clears. now rewrite existsb_app. Qed.

Variables (m0 : list vmessage) (u0 : list (jsval * stream)).
Variable c0 : list request.
Variables (T : list vmessage) (U : list (jsval * stream)) (FT : node).

Lemma Permutation_settle {A : Type} (l a b total : list A) (e : A) :
  Permutation (l ++ a ++ e :: b) total ->
  Permutation ((l ++ [e]) ++ a ++ b) total.
Proof.
  intros H. rewrite <- H, <- app_assoc. apply Permutation_app_head.
  simpl. apply Permutation_middle.
Qed.

(** The ways a resumption can go share their bookkeeping. *)
Ltac expose_pending Hph :=
  unfold pending_entry, pending_unzip, eventual in *;
  rewrite Hph in *; simpl in *.

Ltac same_titles Ht Hph :=
  rewrite <- Ht; apply clear_titles_ext; intros ?;
  rewrite !clears_app; unfold will_clear, eventual; simpl;
  now rewrite Hph.

Ltac keep l H1 H2 := exists l; split; [exact H1 | exact H2].

Ltac grow l e Heq Hperm :=
  exists (l ++ [e]); split;
  [now rewrite Heq, app_assoc | now apply Permutation_settle].

(** One resumption keeps the run on course. *)
Lemma advance_on_course (j : nat) (c : list task * state) :
  on_course w dest m0 u0 c0 T U FT c ->
  on_course w dest m0 u0 c0 T U FT (advance w j c).
Proof.
  destruct c as [tasks st]. unfold advance. cbn [fst snd].
  destruct (uncaught tasks); [trivial|].
  destruct (nth_error tasks j) as [t|] eqn:Hj; [|trivial].
  destruct (nth_error_split _ _ Hj) as (l1 & l2 & -> & <-).
  intros (Hd & (l & Hm & Hl) & (u & Hu & HU) & Ht & Hc). simpl in *.
  rewrite flat_map_app in Hl, HU. simpl in Hl, HU.
  unfold resume. rewrite Hd.
  destruct (t_phase t) as [[artifact|e]|[|e|e]| |e] eqn:Hph; simpl;
    rewrite ?update_split; unfold on_course; simpl;
    rewrite ?flat_map_app; simpl.
  - (* the artifact arrived: extraction starts *)
    expose_pending Hph. repeat split; try assumption.
    + keep l Hm Hl.
    + grow u (dest, artifact) Hu HU.
    + same_titles Ht Hph.
  - (* [getArtifact] failed *)
    expose_pending Hph. repeat split; try assumption.
    + grow l (mkMessage KError (error_message e) (t_position t) None
                        (Some PLUGIN_NAME)) Hm Hl.
    + keep u Hu HU.
    + same_titles Ht Hph.
  - (* extraction finished: the title goes, the info entry comes *)
    expose_pending Hph. repeat split; try assumption.
    + grow l (mkMessage KInfo
                ("artifacts fetched from " ++ tmpl (t_projectId t)
                   ++ " " ++ tmpl (t_jobName t))%string
                (t_position t) None (Some PLUGIN_NAME)) Hm Hl.
    + keep u Hu HU.
    + rewrite <- Ht, assign_as_clear, clear_clear.
      apply clear_titles_ext. intros q.
      rewrite !clears_app. unfold will_clear, eventual. simpl.
      rewrite Hph.
      destruct (clears w dest l1 q), (clears w dest l2 q),
        (path_eqb (t_node t) q); reflexivity.
  - (* the unzip stream failed *)
    expose_pending Hph. repeat split; try assumption.
    + grow l (mkMessage KError (error_message e) (t_position t) None
                        (Some PLUGIN_NAME)) Hm Hl.
    + keep u Hu HU.
    + same_titles Ht Hph.
  - (* the body stream failed: nothing is recorded *)
    expose_pending Hph. repeat split; try assumption.
    + keep l Hm Hl.
    + keep u Hu HU.
    + same_titles Ht Hph.
  - (* nothing left to do *)
    repeat split; try assumption.
    + keep l Hm Hl.
    + keep u Hu HU.
  - repeat split; try assumption.
    + keep l Hm Hl.
    + keep u Hu HU.
Qed.

Lemma exec_on_course (sched : list nat) (c : list task * state) :
  on_course w dest m0 u0 c0 T U FT c ->
  on_course w dest m0 u0 c0 T U FT (exec w sched c).
Proof.
  revert c; induction sched as [|j sched IH]; intros c H; simpl.
  - exact H.
  - apply IH. now apply advance_on_course.
Qed.
End Running.

Section Progress.
Variable w : world.

Lemma exec_cons (a : nat) (sched : list nat) (c : list task * state) :
  exec w (a :: sched) c = exec w sched (advance w a c).
Proof. reflexivity. Qed.

Lemma advance_length (a : nat) (c : list task * state) :
  List.length (fst (advance w a c)) = List.length (fst c).
Proof.
  unfold advance. destruct (uncaught (fst c)); [reflexivity|].
  destruct (nth_error (fst c) a) as [t|]; [|reflexivity].
  destruct (resume w t (snd c)) as [t' st']. simpl. apply length_update.
Qed.

Lemma exec_length (sched : list nat) (c : list task * state) :
  List.length (fst (exec w sched c)) = List.length (fst c).
Proof.
  revert c; induction sched as [|a sched IH]; intros c;
    [reflexivity|]. rewrite exec_cons. now rewrite IH, advance_length.
Qed.

Lemma resume_steps_left (t : task) (st : state) :
  steps_left (fst (resume w t st)) <= steps_left t - 1.
Proof.
  unfold resume, steps_left.
  destruct (t_phase t) as [[artifact|e]|[|e|e]| |e] eqn:Hph; simpl;
    rewrite ?Hph; lia.
Qed.

(** A task that can raise no unheard error becomes a task that can raise
    none. *)
Lemma resume_calm (t : task) (st : state) :
  heard w t = true -> heard w (fst (resume w t st)) = true.
Proof.
  unfold heard, resume, extractArtifact.
  destruct (t_phase t) as [[artifact|e]|[|e|e]| |e] eqn:Hph; simpl;
    rewrite ?Hph; try discriminate; auto.
  destruct (body_flow w (t_index t) artifact); [|discriminate].
  intros _.
  now destruct (unzip w (t_index t) (getDestinationDir (vFile st)) artifact).
Qed.

Lemma heard_not_uncaught (tasks : list task) :
  (forall t, In t tasks -> heard w t = true) -> uncaught tasks = None.
Proof.
  induction tasks as [|t tasks IH]; intros H; [reflexivity|]. simpl.
  pose proof (H t (or_introl eq_refl)) as Ht. unfold heard in Ht.
  destruct (t_phase t); try discriminate; apply IH; intros; apply H;
    now right.
Qed.

Lemma calm_not_uncaught (c : list task * state) :
  calm w c -> uncaught (fst c) = None.
Proof. apply heard_not_uncaught. Qed.

Lemma forallb_false_witness (l : list bool) :
  forallb (fun b : bool => b) l = false -> exists b, In b l /\ b = false.
Proof.
  induction l as [|b l IH]; [discriminate|]. simpl.
  destruct b; simpl.
  - intros H. destruct (IH H) as (b & Hin & Hb). exists b. auto.
  - intros _. exists false. auto.
Qed.

Lemma in_update {A : Type} (l : list A) (j : nat) (a x : A) :
  In x (update j a l) -> x = a \/ In x l.
Proof.
  revert j; induction l as [|y l IH]; intros [|j]; simpl; try tauto.
  - intros [H|H]; auto.
  - intros [H|H]; auto. destruct (IH _ H); auto.
Qed.

Lemma advance_calm (a : nat) (c : list task * state) :
  calm w c -> calm w (advance w a c).
Proof.
  intros Hh. unfold advance. rewrite (calm_not_uncaught c Hh).
  destruct (nth_error (fst c) a) as [t|] eqn:Ha; [|exact Hh].
  assert (H1 : heard w (fst (resume w t (snd c))) = true).
  { apply resume_calm. apply Hh. eapply nth_error_In; eassumption. }
  destruct (resume w t (snd c)) as [t' st']. cbn [fst snd] in *.
  intros x Hx. cbn [fst] in Hx. apply in_update in Hx.
  destruct Hx as [->|Hx]; auto.
Qed.

Lemma exec_calm (sched : list nat) (c : list task * state) :
  calm w c -> calm w (exec w sched c).
Proof.
  revert c; induction sched as [|a sched IH]; intros c H; [exact H|].
  rewrite exec_cons. apply IH. now apply advance_calm.
Qed.

(** While the process lives, resuming a task brings it one step closer to
    its end and leaves the others where they are. *)
Lemma advance_steps_left (a j : nat) (c : list task * state) (t : task) :
  uncaught (fst c) = None ->
  nth_error (fst c) j = Some t ->
  exists t', nth_error (fst (advance w a c)) j = Some t' /\
             steps_left t' <= steps_left t - (if (a =? j)%nat then 1 else 0).
Proof.
  intros Hu Hj. unfold advance. rewrite Hu.
  destruct (nth_error (fst c) a) as [ta|] eqn:Ha.
  - pose proof (resume_steps_left ta (snd c)) as Hr.
    destruct (resume w ta (snd c)) as [ta' st']. simpl in *.
    rewrite nth_error_update, Hj.
    destruct (Nat.eqb_spec a j) as [->|Hne].
    + exists ta'. split; [reflexivity|]. congruence.
    + exists t. split; [reflexivity | lia].
  - exists t. split; [assumption|].
    destruct (Nat.eqb_spec a j) as [->|Hne]; [congruence | lia].
Qed.

Lemma exec_steps_left (sched : list nat) (j : nat)
      (c : list task * state) (t : task) :
  calm w c ->
  nth_error (fst c) j = Some t ->
  exists t', nth_error (fst (exec w sched c)) j = Some t' /\
             steps_left t' <= steps_left t - count_occ Nat.eq_dec sched j.
Proof.
  revert c t; induction sched as [|a sched IH]; intros c t Hc Hj.
  - exists t. split; [assumption | simpl; lia].
  - destruct (advance_steps_left a j c t (calm_not_uncaught c Hc) Hj)
      as (t1 & H1 & Hle1).
    destruct (IH _ _ (advance_calm a c Hc) H1) as (t2 & H2 & Hle2).
    exists t2. rewrite exec_cons. split; [exact H2|]. simpl.
    destruct (Nat.eq_dec a j) as [->|Hne].
    + rewrite Nat.eqb_refl in Hle1. lia.
    + destruct (Nat.eqb_spec a j); [contradiction | lia].
Qed.

(** When no error can go unheard, [Promise.all] finds every task at its
    end. *)
Lemma await_all_settled (sched : list nat) (c : list task * state) (t : task) :
  calm w c ->
  In t (fst (await_all w sched c)) -> t_phase t = Settled.
Proof.
  intros Hc Hin.
  assert (Hheard : heard w t = true).
  { apply (exec_calm _ c Hc t Hin). }
  apply In_nth_error in Hin. destruct Hin as [j Hj].
  unfold await_all in *.
  assert (Hlt : j < List.length (fst c)).
  { rewrite <- (exec_length (sched ++ seq 0 (List.length (fst c))
                                   ++ seq 0 (List.length (fst c))) c).
    apply nth_error_Some. congruence. }
  destruct (nth_error (fst c) j) as [t0|] eqn:H0;
    [|apply nth_error_None in H0; lia].
  destruct (exec_steps_left (sched ++ seq 0 (List.length (fst c))
                                   ++ seq 0 (List.length (fst c)))
                            j c t0 Hc H0) as (t' & Ht' & Hle).
  rewrite Hj in Ht'. inversion Ht'; subst t'.
  rewrite !count_occ_app in Hle.
  assert (Hseq : count_occ Nat.eq_dec (seq 0 (List.length (fst c))) j > 0).
  { apply count_occ_In. apply in_seq. lia. }
  assert (steps_left t0 <= 2)
    by (unfold steps_left; destruct (t_phase t0); lia).
  assert (Hz : steps_left t = 0) by lia.
  unfold steps_left in Hz. unfold heard in Hheard.
  destruct (t_phase t); [lia | lia | reflexivity | discriminate].
Qed.

(** A task heading for an unheard error stays so: it never settles. *)
Lemma resume_unheard (t : task) (st : state) :
  heard w t = false -> heard w (fst (resume w t st)) = false.
Proof.
  unfold heard, resume, extractArtifact.
  destruct (t_phase t) as [[artifact|e]|[|e|e]| |e] eqn:Hph; simpl;
    rewrite ?Hph; try discriminate; auto.
  destruct (body_flow w (t_index t) artifact); [discriminate|reflexivity].
Qed.

Lemma advance_unheard (a j : nat) (c : list task * state) (t : task) :
  nth_error (fst c) j = Some t -> heard w t = false ->
  exists t', nth_error (fst (advance w a c)) j = Some t' /\
             heard w t' = false.
Proof.
  intros Hj Hh. unfold advance.
  destruct (uncaught (fst c)); [now exists t|].
  destruct (nth_error (fst c) a) as [ta|] eqn:Ha; [|now exists t].
  pose proof (resume_unheard ta (snd c)) as Hr.
  destruct (resume w ta (snd c)) as [ta' st']. cbn [fst snd] in *.
  rewrite nth_error_update, Hj.
  destruct (Nat.eqb_spec a j) as [->|Hne]; [|now exists t].
  exists ta'. split; [reflexivity|]. apply Hr. congruence.
Qed.

Lemma exec_unheard (sched : list nat) (j : nat) (c : list task * state)
      (t : task) :
  nth_error (fst c) j = Some t -> heard w t = false ->
  exists t', nth_error (fst (exec w sched c)) j = Some t' /\
             heard w t' = false.
Proof.
  revert c t; induction sched as [|a sched IH]; intros c t Hj Hh.
  - now exists t.
  - rewrite exec_cons.
    destruct (advance_unheard a j c t Hj Hh) as (t1 & H1 & Hh1).
    exact (IH _ _ H1 Hh1).
Qed.

(** An unheard error stays: the process it ended does not come back. *)
Lemma exec_uncaught_before (sched : list nat) (c : list task * state) :
  uncaught (fst (exec w sched c)) = None -> uncaught (fst c) = None.
Proof.
  revert c; induction sched as [|a sched IH]; intros c H; [exact H|].
  rewrite exec_cons in H. apply IH in H. unfold advance in H.
  destruct (uncaught (fst c)) eqn:E; [congruence | reflexivity].
Qed.

Lemma exec_steps_left_alive (sched : list nat) (j : nat)
      (c : list task * state) (t : task) :
  uncaught (fst (exec w sched c)) = None ->
  nth_error (fst c) j = Some t ->
  exists t', nth_error (fst (exec w sched c)) j = Some t' /\
             steps_left t' <= steps_left t - count_occ Nat.eq_dec sched j.
Proof.
  revert c t; induction sched as [|a sched IH]; intros c t Hu Hj.
  - exists t. split; [assumption | simpl; lia].
  - rewrite exec_cons in Hu.
    pose proof (exec_uncaught_before sched _ Hu) as Hu1.
    pose proof (exec_uncaught_before [a] c Hu1) as Hu0.
    destruct (advance_steps_left a j c t Hu0 Hj) as (t1 & H1 & Hle1).
    destruct (IH _ _ Hu H1) as (t2 & H2 & Hle2).
    exists t2. rewrite exec_cons. split; [exact H2|]. simpl.
    destruct (Nat.eq_dec a j) as [->|Hne].
    + rewrite Nat.eqb_refl in Hle1. lia.
    + destruct (Nat.eqb_spec a j); [contradiction | lia].
Qed.

Lemma stuck_uncaught (tasks : list task) (t : task) (e : error) :
  In t tasks -> t_phase t = Stuck e -> uncaught tasks <> None.
Proof.
  induction tasks as [|t0 tasks IH]; intros Hin Hph; [contradiction|].
  simpl. destruct Hin as [->|Hin].
  - rewrite Hph. discriminate.
  - destruct (t_phase t0); try discriminate; now apply IH.
Qed.

(** When a task is heading for an unheard error, [Promise.all] never
    settles, whatever the schedule: some task is left unsettled, and an
    error has gone unheard. *)
Lemma await_all_unheard (sched : list nat) (c : list task * state)
      (j : nat) (t : task) :
  nth_error (fst c) j = Some t -> heard w t = false ->
  forallb is_settled (fst (await_all w sched c)) = false /\
  exists e, uncaught (fst (await_all w sched c)) = Some e.
Proof.
  intros Hj Hh. unfold await_all.
  set (s := sched ++ seq 0 (List.length (fst c))
                  ++ seq 0 (List.length (fst c))).
  destruct (exec_unheard s j c t Hj Hh) as (t' & Ht' & Hh').
  split.
  - destruct (forallb is_settled (fst (exec w s c))) eqn:E; [|reflexivity].
    rewrite forallb_forall in E.
    pose proof (E t' (nth_error_In _ _ Ht')) as Hs.
    unfold is_settled in Hs. unfold heard in Hh'.
    destruct (t_phase t'); discriminate.
  - destruct (uncaught (fst (exec w s c))) as [e|] eqn:E; [now exists e|].
    exfalso.
    destruct (exec_steps_left_alive s j c t E Hj) as (t2 & H2 & Hle).
    rewrite Ht' in H2. inversion H2; subst t2.
    assert (Hlt : j < List.length (fst c))
      by (apply nth_error_Some; congruence).
    unfold s in Hle. rewrite !count_occ_app in Hle.
    assert (Hseq : count_occ Nat.eq_dec (seq 0 (List.length (fst c))) j > 0).
    { apply count_occ_In. apply in_seq. lia. }
    assert (steps_left t <= 2)
      by (unfold steps_left; destruct (t_phase t); lia).
    assert (Hz : steps_left t' = 0) by lia.
    unfold steps_left in Hz. unfold heard in Hh'.
    destruct (t_phase t') as [a|x| |e] eqn:Hph; try lia; try discriminate.
    exact (stuck_uncaught _ t' e (nth_error_In _ _ Ht') Hph E).
Qed.

(** Running tasks only appends to the report, only empties titles, and
    extracts only to the document's destination directory. *)
Lemma advance_preserves (a : nat) (c : list task * state) :
  let st' := snd (advance w a c) in
  data_destinationDir (vFile st') = data_destinationDir (vFile (snd c)) /\
  dirname (vFile st') = dirname (vFile (snd c)) /\
  (exists l, messages (vFile st') = messages (vFile (snd c)) ++ l) /\
  (exists sel, tree st' = clear_titles sel (tree (snd c))) /\
  (exists u, unzips st' = unzips (snd c) ++ u /\
             forall x, In x u -> fst x = getDestinationDir (vFile (snd c))) /\
  calls st' = calls (snd c).
Proof.
  assert (Hnone : exists sel, tree (snd c) = clear_titles sel (tree (snd c))).
  { exists (fun _ => false). symmetry. now apply clear_titles_none. }
  assert (Hu : exists u, unzips (snd c) = unzips (snd c) ++ u /\
               forall x, In x u -> fst x = getDestinationDir (vFile (snd c))).
  { exists []. split; [now rewrite app_nil_r | contradiction]. }
  assert (Hl : exists l, messages (vFile (snd c))
                         = messages (vFile (snd c)) ++ l).
  { exists []. now rewrite app_nil_r. }
  unfold advance. destruct (uncaught (fst c));
    [cbv zeta; repeat split; assumption|].
  destruct (nth_error (fst c) a) as [t|];
    [|cbv zeta; repeat split; assumption].
  unfold resume.
  destruct (t_phase t) as [[artifact|e]|[|e|e]| |e]; simpl;
    repeat split; try reflexivity; try assumption;
    try (eexists; reflexivity).
  - eexists. split; [reflexivity|]. intros x [<-|[]]. reflexivity.
  - exists (path_eqb (t_node t)). apply assign_as_clear.
Qed.

Lemma exec_preserves (sched : list nat) (c : list task * state) :
  let st' := snd (exec w sched c) in
  data_destinationDir (vFile st') = data_destinationDir (vFile (snd c)) /\
  dirname (vFile st') = dirname (vFile (snd c)) /\
  (exists l, messages (vFile st') = messages (vFile (snd c)) ++ l) /\
  (exists sel, tree st' = clear_titles sel (tree (snd c))) /\
  (exists u, unzips st' = unzips (snd c) ++ u /\
             forall x, In x u -> fst x = getDestinationDir (vFile (snd c))) /\
  calls st' = calls (snd c).
Proof.
  revert c; induction sched as [|a sched IH]; intros c.
  - simpl. repeat split; try reflexivity.
    + exists []. now rewrite app_nil_r.
    + exists (fun _ => false). symmetry. now apply clear_titles_none.
    + exists []. split; [now rewrite app_nil_r | contradiction].
  - rewrite exec_cons.
    destruct (IH (advance w a c))
      as (H1 & H2 & (l2 & H3) & (s2 & H4) & (u2 & H5 & H5') & H6).
    destruct (advance_preserves a c)
      as (G1 & G2 & (l1 & G3) & (s1 & G4) & (u1 & G5 & G5') & G6).
    simpl in *.
    repeat split; try congruence.
    + exists (l1 ++ l2). now rewrite H3, G3, app_assoc.
    + exists (fun q => s2 q || s1 q). now rewrite H4, G4, clear_clear.
    + exists (u1 ++ u2). split; [now rewrite H5, G5, app_assoc|].
      intros x Hx. apply in_app_iff in Hx. destruct Hx as [Hx|Hx]; auto.
      rewrite (H5' x Hx). unfold getDestinationDir. now rewrite G1, G2.
Qed.

Lemma settled_nothing_pending (dest : jsval) (tasks : list task) :
  (forall t, In t tasks -> t_phase t = Settled) ->
  flat_map (pending_entry w dest) tasks = [] /\
  flat_map (pending_unzip dest) tasks = [] /\
  forall q, clears w dest tasks q = false.
Proof.
  induction tasks as [|t tasks IH]; intros H.
  - repeat split.
  - destruct IH as (I1 & I2 & I3); [intros; apply H; now right|].
    pose proof (H t (or_introl eq_refl)) as Ht.
    unfold clears in *. simpl.
    unfold pending_entry, pending_unzip, will_clear, eventual.
    rewrite Ht. simpl. repeat split; try assumption.
Qed.

(** Whatever the schedule, when no error can go unheard every task runs to
    its end: the report has then gained exactly the entries the tasks were
    heading for, the extractions started are exactly those they were heading
    for, and the tree has lost exactly the titles of the tasks that
    succeed. *)
Theorem await_all_outcome (sched : list nat) (tasks : list task) (st : state) :
  calm w (tasks, st) ->
  let c' := await_all w sched (tasks, st) in
  let dest := getDestinationDir (vFile st) in
  forallb is_settled (fst c') = true /\
  (exists l, messages (vFile (snd c')) = messages (vFile st) ++ l /\
             Permutation l (flat_map (pending_entry w dest) tasks)) /\
  (exists u, unzips (snd c') = unzips st ++ u /\
             Permutation u (flat_map (pending_unzip dest) tasks)) /\
  tree (snd c') = clear_titles (clears w dest tasks) (tree st) /\
  calls (snd c') = calls st.
Proof.
  intros Hcalm c' dest.
  assert (H0 : on_course w dest (messages (vFile st)) (unzips st) (calls st)
                         (flat_map (pending_entry w dest) tasks)
                         (flat_map (pending_unzip dest) tasks)
                         (clear_titles (clears w dest tasks) (tree st))
                         (tasks, st)).
  { unfold on_course. simpl. repeat split.
    - exists []. now rewrite app_nil_r.
    - exists []. now rewrite app_nil_r. }
  assert (Hsettled : forall t, In t (fst c') -> t_phase t = Settled).
  { intros t. now apply await_all_settled. }
  unfold await_all in c'. cbn [fst] in c'.
  apply (exec_on_course w dest _ _ _ _ _ _
           (sched ++ seq 0 (List.length tasks) ++ seq 0 (List.length tasks)))
    in H0.
  fold c' in H0.
  destruct H0 as (_ & (l & Hm & Hl) & (u & Hu & HU) & Ht & Hc).
  destruct (settled_nothing_pending dest (fst c') Hsettled) as (E1 & E2 & E3).
  rewrite E1, app_nil_r in Hl. rewrite E2, app_nil_r in HU.
  rewrite (clear_titles_none _ _ E3) in Ht.
  repeat split.
  - apply forallb_forall. intros t Hin. unfold is_settled.
    now rewrite (Hsettled t Hin).
  - exists l. split; assumption.
  - exists u. split; assumption.
  - exact Ht.
  - exact Hc.
Qed.
End Progress.

(** ** The tasks of a document whose collected titles are strings *)

Lemma flat_map_imap {A B C : Type} (f : B -> list C) (g : nat -> A -> B)
      (l : list A) (b : nat) :
  flat_map f (imap g b l) = List.concat (imap (fun i a => f (g i a)) b l).
Proof.
  revert b; induction l as [|a l IH]; intros b; simpl;
    [|rewrite IH]; reflexivity.
Qed.

Section Links.
Variable w : world.
Variable opts : options.
Variable dest : jsval.

Lemma pending_entry_link (k : nat) (x : path * node) :
  pending_entry w dest (link_task w opts k x) = link_entry w opts dest k x.
Proof.
  unfold pending_entry, link_entry, link_result, eventual. simpl.
  now destruct (link_artifact w opts k (snd x)).
Qed.

Lemma pending_unzip_link (k : nat) (x : path * node) :
  pending_unzip dest (link_task w opts k x) = link_unzip w opts dest k x.
Proof.
  unfold pending_unzip, link_unzip. simpl.
  now destruct (link_artifact w opts k (snd x)).
Qed.

Lemma will_clear_link (k : nat) (x : path * node) :
  will_clear w dest (link_task w opts k x) =
  match link_result w opts dest k (snd x) with
  | Resolved => true
  | _ => false
  end.
Proof.
  unfold will_clear, link_result, eventual. simpl.
  now destruct (link_artifact w opts k (snd x)).
Qed.

Lemma heard_link (k : nat) (x : path * node) :
  heard w (link_task w opts k x) = stream_ends w opts k (snd x).
Proof.
  unfold heard, stream_ends. simpl.
  now destruct (link_artifact w opts k (snd x)).
Qed.

(** When every body stream ends, no started task can raise an unheard
    error. *)
Lemma streams_end_calm (nodes : list (path * node)) (st : state) :
  streams_end w opts nodes = true ->
  calm w (imap (link_task w opts) 0 nodes, st).
Proof.
  unfold streams_end, calm. rewrite forallb_forall. intros H t Hin.
  cbn [fst] in Hin. apply In_nth_error in Hin. destruct Hin as [k Hk].
  rewrite nth_error_imap in Hk.
  destruct (nth_error nodes k) as [x|] eqn:Hx; [|discriminate].
  cbn [option_map Nat.add] in Hk. inversion Hk; subst t.
  rewrite heard_link. apply H.
  apply nth_error_In with (n := k). now rewrite nth_error_imap, Hx.
Qed.

Lemma pending_entries_links (nodes : list (path * node)) (b : nat) :
  flat_map (pending_entry w dest) (imap (link_task w opts) b nodes) =
  List.concat (imap (link_entry w opts dest) b nodes).
Proof.
  rewrite flat_map_imap. apply f_equal.
  apply imap_ext. intros k x _. apply pending_entry_link.
Qed.

Lemma pending_unzips_links (nodes : list (path * node)) (b : nat) :
  flat_map (pending_unzip dest) (imap (link_task w opts) b nodes) =
  List.concat (imap (link_unzip w opts dest) b nodes).
Proof.
  rewrite flat_map_imap. apply f_equal.
  apply imap_ext. intros k x _. apply pending_unzip_link.
Qed.

(** Among the collected links, the title at a link's path is cleared
    exactly when that link's own task succeeds. *)
Lemma clears_link (nodes : list (path * node)) (k : nat) (x : path * node) :
  NoDup (map fst nodes) -> nth_error nodes k = Some x ->
  clears w dest (imap (link_task w opts) 0 nodes) (fst x) =
  will_clear w dest (link_task w opts k x).
Proof.
  intros Hnd Hk. unfold clears.
  destruct (will_clear w dest (link_task w opts k x)) eqn:Hwc.
  - apply existsb_exists. exists (link_task w opts k x). split.
    + eapply nth_error_In with (n := k).
      rewrite nth_error_imap, Hk. reflexivity.
    + rewrite Hwc. simpl. apply path_eqb_refl.
  - destruct (existsb _ _) eqn:E; [|reflexivity].
    apply existsb_exists in E. destruct E as (t & Hin & Ht).
    apply In_nth_error in Hin. destruct Hin as [k' Hk'].
    rewrite nth_error_imap in Hk'. simpl in Hk'.
    destruct (nth_error nodes k') as [x'|] eqn:Hx'; [|discriminate].
    inversion Hk'; subst t. apply andb_true_iff in Ht.
    destruct Ht as [Hw Hp]. simpl in Hp. apply path_eqb_eq in Hp.
    assert (k' = k) as ->.
    { rewrite NoDup_nth_error in Hnd. apply Hnd.
      - rewrite length_map. apply nth_error_Some. congruence.
      - rewrite !nth_error_map, Hx', Hk. simpl. now rewrite Hp. }
    rewrite Hk in Hx'. inversion Hx'; subst x'. congruence.
Qed.
End Links.

(** What [visitLink] does to a document whose collected titles are all
    strings when every body stream it pipes ends, whatever the schedule: its
    promise is fulfilled, one request per collected link has been issued, in
    scan order, and the report, the extractions and the titles are as the
    links' own outcomes say. *)
Theorem visitLink_outcome (w : world) (sched : list nat) (opts : options)
        (st : state) (nodes : list (path * node)) :
  scan (tree st) = Ok nodes ->
  (forall x, In x nodes -> exists s, node_title (snd x) = JStr s) ->
  streams_end w opts nodes = true ->
  let st' := fst (visitLink w sched opts st) in
  let dest := getDestinationDir (vFile st) in
  snd (visitLink w sched opts st) = Fulfilled tt /\
  (exists l, messages (vFile st') = messages (vFile st) ++ l /\
             Permutation l (List.concat (imap (link_entry w opts dest) 0 nodes))) /\
  (exists u, unzips st' = unzips st ++ u /\
             Permutation u (List.concat (imap (link_unzip w opts dest) 0 nodes))) /\
  tree st' = clear_titles (clears w dest (imap (link_task w opts) 0 nodes))
                          (tree st) /\
  calls st' = calls st ++ map (fun x => link_request opts (snd x)) nodes.
Proof.
  intros Hscan Hstr Hends. cbv zeta. unfold visitLink. rewrite Hscan.
  destruct nodes as [|x nodes].
  - simpl. repeat split.
    + exists []. split; [now rewrite app_nil_r | constructor].
    + exists []. split; [now rewrite app_nil_r | constructor].
    + symmetry. now apply clear_titles_none.
    + now rewrite app_nil_r.
  - rewrite (start_tasks_strings w opts 0 (x :: nodes) Hstr).
    cbn [d_rejected d_tasks d_calls fst snd].
    set (st1 := mkState (tree st) (vFile st) _ (unzips st)).
    destruct (await_all_outcome w sched
                (imap (link_task w opts) 0 (x :: nodes)) st1
                (streams_end_calm w opts (x :: nodes) st1 Hends))
      as (Hall & (l & Hm & Hl) & (u & Hu & HU) & Ht & Hc).
    cbn [vFile unzips tree calls st1] in Hm, Hl, Hu, HU, Ht, Hc.
    rewrite pending_entries_links in Hl. rewrite pending_unzips_links in HU.
    rewrite Hall.
    repeat split.
    + exists l. split; assumption.
    + exists u. split; assumption.
    + exact Ht.
    + exact Hc.
Qed.

(** Whatever the tree, the environment and the schedule, [visitLink] only
    appends to the report and to the logs and only empties titles. *)
Lemma visitLink_preserves (w : world) (sched : list nat) (opts : options)
      (st : state) :
  let st' := fst (visitLink w sched opts st) in
  (exists l, messages (vFile st') = messages (vFile st) ++ l) /\
  (exists sel, tree st' = clear_titles sel (tree st)) /\
  (exists u, unzips st' = unzips st ++ u /\
             forall x, In x u -> fst x = getDestinationDir (vFile st)) /\
  (exists c, calls st' = calls st ++ c).
Proof.
  assert (Hsame :
    (exists l, messages (vFile st) = messages (vFile st) ++ l) /\
    (exists sel, tree st = clear_titles sel (tree st)) /\
    (exists u, unzips st = unzips st ++ u /\
               forall x, In x u -> fst x = getDestinationDir (vFile st)) /\
    (exists c, calls st = calls st ++ c)).
  { repeat split.
    - exists []. now rewrite app_nil_r.
    - exists (fun _ => false). symmetry. now apply clear_titles_none.
    - exists []. split; [now rewrite app_nil_r | contradiction].
    - exists []. now rewrite app_nil_r. }
  cbv zeta. unfold visitLink.
  destruct (scan (tree st)) as [[|x nodes]|e]; try exact Hsame.
  set (d := start_tasks w opts 0 (x :: nodes)).
  set (st1 := mkState (tree st) (vFile st) (calls st ++ d_calls d) (unzips st)).
  assert (Hexec : forall s, let st' := snd (exec w s (d_tasks d, st1)) in
    (exists l, messages (vFile st') = messages (vFile st) ++ l) /\
    (exists sel, tree st' = clear_titles sel (tree st)) /\
    (exists u, unzips st' = unzips st ++ u /\
               forall x, In x u -> fst x = getDestinationDir (vFile st)) /\
    (exists c, calls st' = calls st ++ c)).
  { intros s.
    destruct (exec_preserves w s (d_tasks d, st1))
      as (_ & _ & Hl & Hsel & Hu & Hc).
    cbn [snd st1 vFile tree unzips calls] in *.
    repeat split; try assumption. exists (d_calls d). exact Hc. }
  destruct (d_rejected d); apply Hexec.
Qed.

(** ** Per-link facts shared by the claims *)

Lemma scan_strings (ast : node) (nodes : list (path * node)) :
  mdast ast = true -> scan ast = Ok nodes ->
  forall x, In x nodes -> exists s, node_title (snd x) = JStr s.
Proof.
  intros Hm Hs x Hin. destruct (scan_titles ast nodes x Hm Hs Hin) as (a & b & H).
  eauto.
Qed.

(** The state the transformer leaves is the one [visitLink] leaves. *)
Lemma transformer_state (w : world) (sched : list nat) (opts : options)
      (st : state) :
  fst (transformer w sched opts None st) = fst (visitLink w sched opts st).
Proof.
  unfold transformer. now destruct (snd (visitLink w sched opts st)).
Qed.

(** After a run on a well-typed tree in which every body stream ends, a
    collected link's title is empty when its task succeeded and what it was
    otherwise; the report has gained the entries of the collected links; one
    request per collected link was issued. *)
Lemma link_facts (w : world) (sched : list nat) (opts : options) (st : state)
      (nodes : list (path * node)) (k : nat) (x : path * node) :
  mdast (tree st) = true ->
  scan (tree st) = Ok nodes ->
  streams_end w opts nodes = true ->
  nth_error nodes k = Some x ->
  let st' := fst (transformer w sched opts None st) in
  let dest := getDestinationDir (vFile st) in
  title_at (fst x) (tree st') =
    Some (match link_result w opts dest k (snd x) with
          | Resolved => JStr ""
          | _ => node_title (snd x)
          end) /\
  (exists added,
      messages (vFile st') = messages (vFile st) ++ added /\
      Permutation added (List.concat (imap (link_entry w opts dest) 0 nodes))) /\
  calls st' = calls st ++ map (fun y => link_request opts (snd y)) nodes.
Proof.
  intros Hm Hs Hends Hk. cbv zeta. rewrite transformer_state.
  destruct (visitLink_outcome w sched opts st nodes Hs (scan_strings _ _ Hm Hs)
                              Hends)
    as (_ & Hl & _ & Ht & Hc).
  repeat split; try assumption.
  rewrite Ht, title_at_clear.
  assert (Hin : In x nodes) by (eapply nth_error_In; eassumption).
  pose proof (scan_in_preorder _ _ _ Hs Hin) as Hpre.
  destruct x as [p n]. unfold title_at. cbn [fst snd].
  rewrite (preorder_get _ _ _ Hpre). cbn [option_map].
  pose proof (clears_link w opts (getDestinationDir (vFile st)) nodes k (p, n)
                          (scan_paths_NoDup _ _ Hs) Hk) as Hcl.
  cbn [fst] in Hcl. rewrite Hcl, will_clear_link. cbn [snd].
  now destruct (link_result w opts (getDestinationDir (vFile st)) k n).
Qed.

Lemma title_matches_optional (v : jsval) :
  optional_string v = true ->
  title_matches v = Ok true \/ title_matches v = Ok false.
Proof.
  destruct v; try discriminate; intros _; unfold title_matches; simpl; auto.
  destruct (negb (s =? "")); auto.
  destruct (negb (str_indexOf s MARKER =? -1)%Z); auto.
Qed.

Lemma title_matches_string (s : string) :
  title_matches (JStr s) = Ok true <-> s <> "" /\ carries s MARKER.
Proof.
  unfold title_matches, carries. cbn [truthy js_indexOf]. split.
  - intros H. destruct (String.eqb_spec s "") as [E|Hne]; cbn [negb] in H;
      [discriminate|]. split; [assumption|]. apply str_indexOf_found.
    destruct (str_indexOf s MARKER =? -1)%Z; [discriminate | reflexivity].
  - intros [Hne Hc]. apply str_indexOf_found in Hc.
    destruct (String.eqb_spec s ""); [contradiction|]. cbn [negb].
    now rewrite Hc.
Qed.

Lemma visit_list_nothing (g : path * node -> path * node)
      (l acc : list (path * node)) :
  (forall x, In x l -> node_type (snd (g x)) = "link" ->
             title_matches (node_title (snd (g x))) = Ok false) ->
  visit_list "link" collect (map g l) acc = Ok acc.
Proof.
  revert acc; induction l as [|x l IH]; intros acc H; simpl; [reflexivity|].
  destruct (String.eqb_spec (node_type (snd (g x))) "link") as [E|E].
  - rewrite collect_title_matches, (H x (or_introl eq_refl) E).
    apply IH. intros; apply H; [now right | assumption].
  - apply IH. intros; apply H; [now right | assumption].
Qed.

Lemma all_succeed_nth (w : world) (opts : options) (dest : jsval)
      (nodes : list (path * node)) (k : nat) (x : path * node) :
  all_succeed w opts dest nodes = true -> nth_error nodes k = Some x ->
  link_result w opts dest k (snd x) = Resolved.
Proof.
  unfold all_succeed. rewrite forallb_forall. intros H Hk.
  assert (Hin : In (match link_result w opts dest k (snd x) with
                    | Resolved => true | _ => false end)
                   (imap (fun k x => match link_result w opts dest k (snd x) with
                                     | Resolved => true | _ => false end)
                         0 nodes)).
  { apply nth_error_In with (n := k). rewrite nth_error_imap, Hk. reflexivity. }
  apply H in Hin.
  destruct (link_result w opts dest k (snd x)) as [|e|e];
    [reflexivity | discriminate | discriminate].
Qed.

(** A link whose task does not end [Unheard] has a body stream that ends, or
    none. *)
Lemma link_result_stream_ends (w : world) (opts : options) (dest : jsval)
      (k : nat) (n : node) :
  stream_ends w opts k n =
  match link_result w opts dest k n with
  | Unheard _ => false
  | _ => true
  end.
Proof.
  unfold stream_ends, link_result, extractArtifact.
  destruct (link_artifact w opts k n) as [artifact|e]; [|reflexivity].
  cbn [snd]. destruct (body_flow w k artifact); [|reflexivity].
  now destruct (unzip w k dest artifact).
Qed.

Lemma all_succeed_streams_end (w : world) (opts : options) (dest : jsval)
      (nodes : list (path * node)) :
  all_succeed w opts dest nodes = true -> streams_end w opts nodes = true.
Proof.
  intros H. unfold streams_end. apply forallb_forall. intros b Hb.
  apply In_nth_error in Hb. destruct Hb as [k Hk].
  rewrite nth_error_imap in Hk.
  destruct (nth_error nodes k) as [x|] eqn:Hx; [|discriminate].
  cbn [option_map Nat.add] in Hk. inversion Hk; subst b.
  rewrite (link_result_stream_ends w opts dest).
  now rewrite (all_succeed_nth w opts dest nodes k x H Hx).
Qed.

Lemma advance_with_calls (w : world) (j : nat) (c : list request)
      (tasks : list task) (st : state) :
  advance w j (tasks, with_calls c st) =
  (fst (advance w j (tasks, st)), with_calls c (snd (advance w j (tasks, st)))).
Proof.
  unfold advance. cbn [fst snd].
  destruct (uncaught tasks); [reflexivity|].
  destruct (nth_error tasks j) as [t|]; [|reflexivity].
  unfold resume.
  now destruct (t_phase t) as [[artifact|e]|[|e|e]| |e].
Qed.

(** The tasks never look at the log of requests. *)
Lemma exec_with_calls (w : world) (sched : list nat) (c : list request)
      (tasks : list task) (st : state) :
  exec w sched (tasks, with_calls c st) =
  (fst (exec w sched (tasks, st)), with_calls c (snd (exec w sched (tasks, st)))).
Proof.
  revert tasks st; induction sched as [|j sched IH]; intros tasks st.
  - reflexivity.
  - rewrite !exec_cons, advance_with_calls.
    destruct (advance w j (tasks, st)) as [tasks' st']. apply IH.
Qed.

(** The token reaches the tasks only through what [fetch] answers. *)
Lemma start_tasks_token (w : world) (base token1 token2 : string)
      (nodes : list (path * node)) (k : nat) :
  (forall i url,
      fetch w i (mkRequest "GET" url [("PRIVATE-TOKEN", token1)]) =
      fetch w i (mkRequest "GET" url [("PRIVATE-TOKEN", token2)])) ->
  d_tasks (start_tasks w (mkOptions base token1) k nodes) =
  d_tasks (start_tasks w (mkOptions base token2) k nodes) /\
  d_rejected (start_tasks w (mkOptions base token1) k nodes) =
  d_rejected (start_tasks w (mkOptions base token2) k nodes).
Proof.
  intros H. revert k; induction nodes as [|x nodes IH]; intros k.
  - split; reflexivity.
  - destruct (IH (S k)) as [IH1 IH2]. simpl. unfold start_task.
    destruct (js_split (node_title (snd x))) as [segs|e].
    + unfold getArtifact. cbn [apiBase gitlabApiToken]. rewrite H.
      cbn [d_tasks d_rejected]. now rewrite IH1, IH2.
    + cbn [d_tasks d_rejected]. now rewrite IH1.
Qed.

Lemma link_result_cases (w : world) (opts : options) (dest : jsval) (k : nat)
      (n : node) :
  link_result w opts dest k n =
  match fetch w k (link_request opts n) with
  | Throw e => Failed e
  | Ok response =>
      if (status response =? 200)%Z
      then match body_flow w k (body response) with
           | Ends => match unzip w k dest (body response) with
                     | Ok _ => Resolved
                     | Throw e => Failed e
                     end
           | Errors e => Unheard e
           end
      else Failed (Error (statusText response ++ " from "
                            ++ link_url opts n ++ ".")%string)
  end.
Proof.
  unfold link_result, link_artifact, getArtifact, link_request, link_url,
    extractArtifact.
  cbn [snd].
  destruct (fetch w k _) as [response|e]; [|reflexivity].
  now destruct (status response =? 200)%Z.
Qed.

(** The requests are issued when the tasks start, whatever follows. *)
Lemma visitLink_calls (w : world) (sched : list nat) (opts : options)
      (st : state) (nodes : list (path * node)) :
  scan (tree st) = Ok nodes ->
  (forall x, In x nodes -> exists s, node_title (snd x) = JStr s) ->
  calls (fst (visitLink w sched opts st)) =
  calls st ++ map (fun y => link_request opts (snd y)) nodes.
Proof.
  intros Hs Hstr. unfold visitLink. rewrite Hs.
  destruct nodes as [|x nodes]; [simpl; now rewrite app_nil_r|].
  rewrite (start_tasks_strings w opts 0 (x :: nodes) Hstr).
  cbn [d_rejected d_tasks d_calls fst snd]. unfold await_all.
  match goal with
  | |- calls (snd (exec w ?s ?c)) = _ =>
      destruct (exec_preserves w s c) as (_ & _ & _ & _ & _ & Hc)
  end.
  exact Hc.
Qed.

Lemma stream_ends_nth (w : world) (opts : options)
      (nodes : list (path * node)) (k : nat) (x : path * node) :
  streams_end w opts nodes = true -> nth_error nodes k = Some x ->
  stream_ends w opts k (snd x) = true.
Proof.
  unfold streams_end. rewrite forallb_forall. intros H Hk. apply H.
  apply nth_error_In with (n := k). now rewrite nth_error_imap, Hk.
Qed.

(** A link whose body stream ends records exactly one entry. *)
Lemma link_entry_one (w : world) (opts : options) (dest : jsval)
      (nodes : list (path * node)) (k : nat) (x : path * node) :
  streams_end w opts nodes = true -> nth_error nodes k = Some x ->
  List.length (link_entry w opts dest k x) = 1.
Proof.
  intros H Hk. pose proof (stream_ends_nth w opts nodes k x H Hk) as He.
  rewrite (link_result_stream_ends w opts dest) in He. unfold link_entry.
  now destruct (link_result w opts dest k (snd x)).
Qed.

Lemma streams_end_false (w : world) (opts : options)
      (nodes : list (path * node)) :
  streams_end w opts nodes = false ->
  exists k x, nth_error nodes k = Some x /\
              stream_ends w opts k (snd x) = false.
Proof.
  unfold streams_end. intros H.
  destruct (forallb_false_witness _ H) as (b & Hin & Hb).
  apply In_nth_error in Hin. destruct Hin as [k Hk].
  rewrite nth_error_imap in Hk.
  destruct (nth_error nodes k) as [x|] eqn:Hx; [|discriminate].
  cbn [option_map Nat.add] in Hk. inversion Hk; subst b.
  now exists k, x.
Qed.

(** When the body stream of a collected link breaks off, [visitLink] never
    settles, whatever the schedule. *)
Lemma visitLink_unheard (w : world) (sched : list nat) (opts : options)
      (st : state) (nodes : list (path * node)) :
  scan (tree st) = Ok nodes ->
  (forall x, In x nodes -> exists s, node_title (snd x) = JStr s) ->
  streams_end w opts nodes = false ->
  exists e, snd (visitLink w sched opts st) = Pending (Some e).
Proof.
  intros Hs Hstr Hends.
  destruct (streams_end_false w opts nodes Hends) as (k & x & Hk & Hx).
  unfold visitLink. rewrite Hs.
  destruct nodes as [|y nodes]; [destruct k; discriminate|].
  rewrite (start_tasks_strings w opts 0 (y :: nodes) Hstr).
  cbn [d_rejected d_tasks d_calls fst snd].
  match goal with
  | |- context [await_all w sched ?c] =>
      destruct (await_all_unheard w sched c k (link_task w opts k x))
        as (Hall & e & He)
  end.
  - cbn [fst]. now rewrite nth_error_imap, Hk.
  - now rewrite heard_link.
  - exists e. now rewrite Hall, He.
Qed.

Lemma not_carries (msg part : string) :
  (str_indexOf msg part =? -1)%Z = true -> ~ carries msg part.
Proof.
  intros H Hc. apply str_indexOf_found in Hc. congruence.
Qed.

(** ** The claims *)

(** C1 as stated fails: a title with the marker and a single further segment
    is collected; a request is issued for it, with [undefined] as the job
    name; an entry is recorded; and, the request succeeding, the title is
    emptied. *)
Lemma C1_counterexample :
  str_split "|"%char "gitlab-artifact|onlyOneField"
  = ["gitlab-artifact"; "onlyOneField"] /\
  title_at [0; 0] (document [malformed_link])
  = Some (JStr "gitlab-artifact|onlyOneField") /\
  calls (initial (document [malformed_link])) = [] /\
  messages (vFile (initial (document [malformed_link]))) = [] /\
  calls (fst (transformer world_ok [0; 0] sample_options None
                          (initial (document [malformed_link]))))
  = [mkRequest "GET"
       "https://src.temando.io/api/v4/projects/onlyOneField/jobs/artifacts/master/download?job=undefined"
       [("PRIVATE-TOKEN", "secret")]] /\
  messages (vFile (fst (transformer world_ok [0; 0] sample_options None
                                    (initial (document [malformed_link])))))
  = [mkMessage KInfo "artifacts fetched from onlyOneField undefined"
               sample_position None (Some PLUGIN_NAME)] /\
  title_at [0; 0]
           (tree (fst (transformer world_ok [0; 0] sample_options None
                                   (initial (document [malformed_link])))))
  = Some (JStr "").
Proof. repeat split. Qed.

(** C1 (as the code has it). On a well-typed tree, a link node whose title
    contains the marker but has no third [|]-separated segment is collected
    like any other: one request is issued for it, with the title's second
    segment as project and the text [undefined] as job name; the report
    gains exactly one entry per collected link, this one included; and the
    node's title is emptied when its request and extraction succeed and is
    left as it was when they fail.  The request is issued whatever happens
    next; the entries and the titles are those of a run in which every body
    stream that is piped ends. *)
Theorem C1_missing_segment_is_still_matched
        (w : world) (sched : list nat) (opts : options) (st : state)
        (nodes : list (path * node)) (p : path) (n : node) (s : string) :
  mdast (tree st) = true ->
  scan (tree st) = Ok nodes ->
  In (p, n) (preorder (tree st)) ->
  node_type n = "link" ->
  node_title n = JStr s ->
  carries s MARKER ->
  nth_error (str_split "|"%char s) 2 = None ->
  let st' := fst (transformer w sched opts None st) in
  let dest := getDestinationDir (vFile st) in
  exists k projectId,
    nth_error nodes k = Some (p, n) /\
    link_reference n = (Some projectId, None) /\
    link_request opts n =
      mkRequest "GET"
                (apiBase opts ++ "/api/v4/projects/" ++ projectId
                   ++ "/jobs/artifacts/master/download?job=undefined")%string
                [("PRIVATE-TOKEN", gitlabApiToken opts)] /\
    calls st' = calls st ++ map (fun y => link_request opts (snd y)) nodes /\
    (streams_end w opts nodes = true ->
     (exists added,
         messages (vFile st') = messages (vFile st) ++ added /\
         Permutation added
                     (List.concat (imap (link_entry w opts dest) 0 nodes))) /\
     List.length (link_entry w opts dest k (p, n)) = 1 /\
     title_at p (tree st') =
       Some (match link_result w opts dest k n with
             | Resolved => JStr ""
             | _ => JStr s
             end)).
Proof.
  intros Hm Hs Hin Hty Hti Hc Hseg. cbv zeta.
  assert (Hnodes : In (p, n) nodes).
  { rewrite (scan_collected _ _ Hs). apply filter_In. split; [exact Hin|].
    unfold collected, is_link. cbn [snd]. rewrite Hty, Hti.
    change ("link" =? "link") with true. cbn [andb].
    assert (Hmatch : title_matches (JStr s) = Ok true).
    { apply title_matches_string. split; [|exact Hc].
      destruct Hc as (a & b & ->). destruct a; discriminate. }
    now rewrite Hmatch. }
  apply In_nth_error in Hnodes. destruct Hnodes as [k Hk].
  destruct Hc as (a & b & Hab).
  destruct (marker_second_segment a b) as [projectId Hp].
  rewrite <- Hab in Hp.
  assert (Href : link_reference n = (Some projectId, None)).
  { unfold link_reference. rewrite Hti. cbn [js_split]. now rewrite Hp, Hseg. }
  exists k, projectId. repeat split; try assumption.
  - unfold link_request, link_url, artifact_url. now rewrite Href.
  - rewrite transformer_state.
    apply (visitLink_calls w sched opts st nodes Hs (scan_strings _ _ Hm Hs)).
  - destruct (link_facts w sched opts st nodes k (p, n) Hm Hs H Hk)
      as (_ & Hl & _). exact Hl.
  - apply (link_entry_one w opts _ nodes k (p, n) H Hk).
  - destruct (link_facts w sched opts st nodes k (p, n) Hm Hs H Hk)
      as (Ht & _ & _).
    cbn [fst snd] in Ht. rewrite Ht, Hti. reflexivity.
Qed.

Lemma C1_missing_segment_is_still_matched_witness :
  exists k projectId,
    nth_error [([0; 0], malformed_link)] k = Some ([0; 0], malformed_link) /\
    link_reference malformed_link = (Some projectId, None) /\
    link_request sample_options malformed_link =
      mkRequest "GET"
                (apiBase sample_options ++ "/api/v4/projects/" ++ projectId
                   ++ "/jobs/artifacts/master/download?job=undefined")%string
                [("PRIVATE-TOKEN", gitlabApiToken sample_options)].
Proof.
  destruct (C1_missing_segment_is_still_matched
              world_ok [0; 0] sample_options
              (initial (document [malformed_link]))
              [([0; 0], malformed_link)] [0; 0] malformed_link
              "gitlab-artifact|onlyOneField"
              eq_refl eq_refl (or_intror (or_intror (or_introl eq_refl)))
              eq_refl eq_refl
              (ex_intro _ "" (ex_intro _ "onlyOneField" eq_refl))
              eq_refl)
    as (k & projectId & H1 & H2 & H3 & _).
  exists k, projectId. repeat split; assumption.
Defined.

(** C2 does not hold of the code as written.  [artifact.pipe(unzip)] returns
    [unzip], so both ['error'] listeners of [extractArtifact] are on the
    unzip stream and none is on the response's body stream.  When the body
    stream of some collected link emits ['error'], the extraction's promise
    never settles, the link's task never ends and [Promise.all] never
    settles: whatever the schedule, and with or without [next], the
    transformer's promise stays pending (the tree is not returned and [next]
    is not called), and the error, having no listener, is thrown by Node to
    the host. *)
Theorem C2_unheard_stream_error_blocks_the_transformer
        (w : world) (sched : list nat) (opts : options)
        (next : option callback) (st : state) (nodes : list (path * node)) :
  mdast (tree st) = true ->
  scan (tree st) = Ok nodes ->
  streams_end w opts nodes = false ->
  exists e, snd (transformer w sched opts next st) = Pending (Some e).
Proof.
  intros Hm Hs Hends.
  destruct (visitLink_unheard w sched opts st nodes Hs (scan_strings _ _ Hm Hs)
                              Hends) as [e He].
  exists e. unfold transformer. now rewrite He.
Qed.

Lemma C2_unheard_stream_error_blocks_the_transformer_witness :
  exists e,
    snd (transformer world_body_error [0; 0] sample_options None
                     (initial fixture)) = Pending (Some e).
Proof.
  apply (C2_unheard_stream_error_blocks_the_transformer
           world_body_error [0; 0] sample_options None (initial fixture)
           [([0; 0], fixture_link)]); reflexivity.
Defined.

(** The request is answered [200 OK] and the body stream breaks off: the
    extraction was started, nothing is recorded, the title stays, and the
    transformer's promise is pending with the error unheard. *)
Example body_stream_error_unheard :
  fetch world_body_error 0 (link_request sample_options fixture_link)
  = Ok (mkResponse 200 "OK" "PK") /\
  body_flow world_body_error 0 "PK" = Errors (Error "aborted") /\
  transformer world_body_error [0; 0] sample_options None (initial fixture)
  = (mkState fixture sample_vfile
             [link_request sample_options fixture_link]
             [(JStr "/out", "PK")],
     Pending (Some (Error "aborted"))).
Proof. repeat split. Qed.

(** A truthy title without an [indexOf] method makes the scan throw; the
    transformer still returns the tree, untouched. *)
Example scan_fault_swallowed :
  scan (document [link_node (JNum 5)])
  = Throw (Error "title.indexOf is not a function") /\
  transformer world_ok [] sample_options None
              (initial (document [link_node (JNum 5)]))
  = (initial (document [link_node (JNum 5)]), Fulfilled ReturnedAst).
Proof. split; reflexivity. Qed.

(** An array title holding the marker is collected, and its task throws at
    [title.split]: [Promise.all] rejects, the transformer still returns. *)
Example task_fault_swallowed :
  snd (visitLink world_ok [] sample_options
                 (initial (document [link_node (JArr [JStr MARKER])])))
  = Rejected (Error "title.split is not a function") /\
  transformer world_ok [] sample_options None
              (initial (document [link_node (JArr [JStr MARKER])]))
  = (initial (document [link_node (JArr [JStr MARKER])]),
     Fulfilled ReturnedAst).
Proof. split; reflexivity. Qed.

(** C3 (as the code has it). On a well-typed tree, in a run in which every
    body stream that is piped ends, a collected link whose task ends in its
    [catch] keeps its title, marker included, and the report gains, whatever
    the order in which the tasks finish, the entries of the collected links,
    that of this link being exactly one error entry at the node's position
    whose message is the failure's own: [{statusText} from {url}.] when the
    response's status is not 200, the rejection's message when [fetch]
    itself is rejected, the unzip stream's error message when the extraction
    fails. *)
Theorem C3_failure_keeps_title_and_reports_error
        (w : world) (sched : list nat) (opts : options) (st : state)
        (nodes : list (path * node)) (k : nat) (p : path) (n : node)
        (e : error) :
  mdast (tree st) = true ->
  scan (tree st) = Ok nodes ->
  streams_end w opts nodes = true ->
  nth_error nodes k = Some (p, n) ->
  link_result w opts (getDestinationDir (vFile st)) k n = Failed e ->
  let st' := fst (transformer w sched opts None st) in
  let dest := getDestinationDir (vFile st) in
  title_at p (tree st') = Some (node_title n) /\
  (exists a b, node_title n = JStr (a ++ MARKER ++ b)) /\
  (exists added,
      messages (vFile st') = messages (vFile st) ++ added /\
      Permutation added
                  (List.concat (imap (link_entry w opts dest) 0 nodes))) /\
  link_entry w opts dest k (p, n) =
    [mkMessage KError (error_message e) (node_position n)
               None (Some PLUGIN_NAME)] /\
  match fetch w k (link_request opts n) with
  | Throw rejection => e = rejection
  | Ok response =>
      if (status response =? 200)%Z
      then body_flow w k (body response) = Ends /\
           unzip w k dest (body response) = Throw e
      else error_message e =
           (statusText response ++ " from " ++ link_url opts n ++ ".")%string
  end.
Proof.
  intros Hm Hs Hends Hk Hres. cbv zeta.
  destruct (link_facts w sched opts st nodes k (p, n) Hm Hs Hends Hk)
    as (Ht & Hl & _).
  cbn [fst snd] in Ht. rewrite Hres in Ht.
  repeat split; try assumption.
  - apply (scan_titles _ _ (p, n) Hm Hs). eapply nth_error_In; eassumption.
  - unfold link_entry. cbn [snd]. now rewrite Hres.
  - rewrite link_result_cases in Hres.
    destruct (fetch w k (link_request opts n)) as [response|rejection].
    + destruct (status response =? 200)%Z; [|now inversion Hres].
      destruct (body_flow w k (body response)); [|discriminate].
      split; [reflexivity|].
      destruct (unzip w k _ (body response)) as [[]|e'];
        [discriminate | now inversion Hres].
    + now inversion Hres.
Qed.

Lemma C3_failure_keeps_title_and_reports_error_witness :
  title_at [0; 0]
           (tree (fst (transformer world_not_found [0] sample_options None
                                   (initial fixture))))
  = Some (JStr fixture_title) /\
  link_entry world_not_found sample_options (JStr "/out") 0
             ([0; 0], fixture_link)
  = [mkMessage KError
       "Not Found from https://src.temando.io/api/v4/projects/1095/jobs/artifacts/master/download?job=build:docs."
       sample_position None (Some PLUGIN_NAME)].
Proof.
  pose proof (C3_failure_keeps_title_and_reports_error
                world_not_found [0] sample_options (initial fixture)
                [([0; 0], fixture_link)] 0 [0; 0] fixture_link
                (Error "Not Found from https://src.temando.io/api/v4/projects/1095/jobs/artifacts/master/download?job=build:docs.")
                eq_refl eq_refl eq_refl eq_refl eq_refl)
    as H.
  split; [exact (proj1 H) | exact (proj1 (proj2 (proj2 (proj2 H))))].
Defined.

(** C3 as stated fails when the failure is not a non-200 response: here the
    request is answered [200 OK], the body stream ends and the archive is
    broken; the one entry recorded for the link carries the unzip stream's
    message, in which neither the response's status text nor the request URL
    occurs. *)
Lemma C3_counterexample :
  scan fixture = Ok [([0; 0], fixture_link)] /\
  fetch world_bad_archive 0 (link_request sample_options fixture_link)
  = Ok (mkResponse 200 "OK" "PK") /\
  body_flow world_bad_archive 0 "PK" = Ends /\
  link_result world_bad_archive sample_options (JStr "/out") 0 fixture_link
  = Failed (Error "invalid signature") /\
  messages (vFile (fst (transformer world_bad_archive [0; 0] sample_options
                                   None (initial fixture))))
  = [mkMessage KError "invalid signature" sample_position
               None (Some PLUGIN_NAME)] /\
  ~ carries "invalid signature" "OK" /\
  ~ carries "invalid signature" (link_url sample_options fixture_link).
Proof.
  repeat split; try reflexivity; apply not_carries; reflexivity.
Qed.



(** C5 as stated fails: the title [gitlab-artifact|onlyOneField] is not of
    the three-field reference syntax, and no other link is in the document,
    yet the scanner collects the node, a request is issued for it and,
    GitLab answering [404], an error entry is recorded. *)
Lemma C5_counterexample :
  existsb (fun x => is_link x && spec_reference_syntax (node_title (snd x)))
          (preorder (document [malformed_link])) = false /\
  scan (document [malformed_link]) = Ok [([0; 0], malformed_link)] /\
  calls (fst (transformer world_not_found [0] sample_options None
                          (initial (document [malformed_link]))))
  = [mkRequest "GET"
       "https://src.temando.io/api/v4/projects/onlyOneField/jobs/artifacts/master/download?job=undefined"
       [("PRIVATE-TOKEN", "secret")]] /\
  messages (vFile (fst (transformer world_not_found [0] sample_options None
                                    (initial (document [malformed_link])))))
  = [mkMessage KError
       "Not Found from https://src.temando.io/api/v4/projects/onlyOneField/jobs/artifacts/master/download?job=undefined."
       sample_position None (Some PLUGIN_NAME)].
Proof. repeat split. Qed.

(** C5 (as the code has it). When no [link] node of the tree passes the
    scanner's own test, that is every [link] node's title is falsy or
    [indexOf] does not find the marker in it, the scan collects nothing and
    the transformer returns at once, leaving everything as it was: the tree,
    the report, and the logs of requests and extractions. *)
Theorem C5_no_match_no_effect (w : world) (sched : list nat)
        (opts : options) (st : state) :
  (forall p n, In (p, n) (preorder (tree st)) -> node_type n = "link" ->
               truthy (node_title n) = false \/
               js_indexOf (node_title n) MARKER = Ok (-1)%Z) ->
  scan (tree st) = Ok [] /\
  transformer w sched opts None st = (st, Fulfilled ReturnedAst).
Proof.
  intros H.
  assert (Hscan : scan (tree st) = Ok []).
  { unfold scan, visit. rewrite <- (map_id (preorder (tree st))).
    apply visit_list_nothing. intros [p n] Hin Hty. cbn [snd] in *.
    unfold title_matches.
    destruct (H p n Hin Hty) as [Hf|Hi].
    - now rewrite Hf.
    - rewrite Hi. now destruct (truthy (node_title n)). }
  split; [exact Hscan|].
  unfold transformer, visitLink. rewrite Hscan. reflexivity.
Qed.

Lemma C5_no_match_no_effect_witness :
  scan (document [link_node (JStr "Title"); link_node JUndefined]) = Ok [] /\
  transformer world_ok [0; 1] sample_options None
              (initial (document [link_node (JStr "Title");
                                  link_node JUndefined]))
  = (initial (document [link_node (JStr "Title"); link_node JUndefined]),
     Fulfilled ReturnedAst).
Proof.
  apply (C5_no_match_no_effect world_ok [0; 1] sample_options
           (initial (document [link_node (JStr "Title");
                               link_node JUndefined]))).
  simpl. intros p n H Hty.
  repeat (destruct H as [H|H]; [inversion H; subst; clear H|]);
    try contradiction; try discriminate; auto.
Defined.

(** C6. [getArtifact] issues exactly one request: a GET to
    [{apiBase}/api/v4/projects/{projectId}/jobs/artifacts/master/download?job={jobName}]
    whose only header is [PRIVATE-TOKEN: {token}]; and its promise is
    fulfilled with a stream exactly when [fetch] answers with status 200,
    the stream being that response's body. *)
Theorem C6_getArtifact_request (f : request -> result response)
        (apiBase token projectId jobName : string) :
  let url := (apiBase ++ "/api/v4/projects/" ++ projectId
                ++ "/jobs/artifacts/master/download?job=" ++ jobName)%string in
  let req := mkRequest "GET" url [("PRIVATE-TOKEN", token)] in
  let r := getArtifact f apiBase token (Some projectId) (Some jobName) in
  fst r = [req] /\
  forall artifact,
    snd r = Ok artifact <->
    exists response,
      f req = Ok response /\ status response = 200%Z /\
      body response = artifact.
Proof.
  cbv zeta. unfold getArtifact, artifact_url. cbn [fst snd tmpl].
  split; [reflexivity|]. intros artifact.
  destruct (f _) as [response|e].
  - destruct (Z.eqb_spec (status response) 200) as [E|E]; simpl.
    + split.
      * intros H. inversion H. now exists response.
      * intros (r' & Hr & _ & Hb). inversion Hr. now subst.
    + split; [discriminate|].
      intros (r' & Hr & Hs & _). inversion Hr. now subst.
  - split; [discriminate | intros (r' & Hr & _); discriminate].
Qed.

(** C7. The destination directory is the vFile's [data.destinationDir] when
    that is truthy and the vFile's [dirname] otherwise; and every extraction
    a run of the transformer starts, for whichever link, goes to that
    directory of the document. *)
Theorem C7_destination_directory (w : world) (sched : list nat)
        (opts : options) (st : state) :
  getDestinationDir (vFile st) =
  (if truthy (data_destinationDir (vFile st))
   then data_destinationDir (vFile st) else dirname (vFile st)) /\
  exists started,
    unzips (fst (transformer w sched opts None st)) = unzips st ++ started /\
    forall dir artifact,
      In (dir, artifact) started -> dir = getDestinationDir (vFile st).
Proof.
  split; [reflexivity|]. rewrite transformer_state.
  destruct (visitLink_preserves w sched opts st) as (_ & _ & (u & Hu & Hd) & _).
  exists u. split; [exact Hu|]. intros dir artifact Hin.
  exact (Hd (dir, artifact) Hin).
Qed.

(** With the override the archive goes to [/out], without it to the
    document's own directory. *)
Example destination_override :
  unzips (fst (transformer world_ok [] sample_options None
                 (initial (document [link_node (JStr "gitlab-artifact|1095|build:docs")]))))
  = [(JStr "/out", "PK")] /\
  getDestinationDir (mkVFile JUndefined (JStr "/src") []) = JStr "/src" /\
  getDestinationDir (mkVFile (JStr "") (JStr "/src") []) = JStr "/src".
Proof. repeat split. Qed.

(** C8. On a well-typed tree all of whose collected links were processed
    successfully by a first run, a second run (in any environment, under any
    schedule, with any options) collects nothing and changes nothing: no
    request, no extraction, no entry; a node whose title is the empty
    string is never collected. *)
Theorem C8_second_run_does_nothing
        (w w2 : world) (sched sched2 : list nat) (opts opts2 : options)
        (st : state) (nodes : list (path * node)) :
  mdast (tree st) = true ->
  scan (tree st) = Ok nodes ->
  all_succeed w opts (getDestinationDir (vFile st)) nodes = true ->
  let st1 := fst (transformer w sched opts None st) in
  scan (tree st1) = Ok [] /\
  fst (transformer w2 sched2 opts2 None st1) = st1 /\
  title_matches (JStr "") = Ok false.
Proof.
  intros Hm Hs Hall. cbv zeta.
  assert (Hscan1 :
    scan (tree (fst (transformer w sched opts None st))) = Ok []).
  { rewrite transformer_state.
    destruct (visitLink_outcome w sched opts st nodes Hs
                                (scan_strings _ _ Hm Hs)
                                (all_succeed_streams_end _ _ _ _ Hall))
      as (_ & _ & _ & Ht & _).
    rewrite Ht. unfold scan, visit. rewrite preorder_clear.
    apply visit_list_nothing. intros [q m] Hin Hty. cbn [fst snd] in *.
    rewrite node_type_clear in Hty. rewrite node_title_clear, app_nil_r.
    destruct (clears w _ _ q) eqn:Hcl; [reflexivity|].
    pose proof (mdast_preorder _ _ _ Hm Hin) as Hopt.
    destruct (title_matches_optional _ Hopt) as [Hyes|Hno]; [|exact Hno].
    exfalso.
    assert (Hcol : In (q, m) nodes).
    { rewrite (scan_collected _ _ Hs). apply filter_In. split; [exact Hin|].
      unfold collected, is_link. cbn [snd]. rewrite Hty, Hyes. reflexivity. }
    apply In_nth_error in Hcol. destruct Hcol as [k Hk].
    pose proof (clears_link w opts (getDestinationDir (vFile st)) nodes k
                            (q, m) (scan_paths_NoDup _ _ Hs) Hk) as Hcl'.
    cbn [fst] in Hcl'. rewrite Hcl, will_clear_link in Hcl'.
    pose proof (all_succeed_nth _ _ _ _ _ _ Hall Hk) as Hu.
    cbn [snd] in *. rewrite Hu in Hcl'. discriminate. }
  repeat split; [exact Hscan1|].
  rewrite transformer_state. unfold visitLink.
  now rewrite Hscan1.
Qed.

Lemma C8_second_run_does_nothing_witness :
  fst (transformer world_not_found [0] sample_options None
         (fst (transformer world_ok [0; 0] sample_options None
                           (initial fixture))))
  = fst (transformer world_ok [0; 0] sample_options None (initial fixture)).
Proof.
  exact (proj1 (proj2 (C8_second_run_does_nothing
                         world_ok world_not_found [0; 0] [0]
                         sample_options sample_options (initial fixture)
                         [([0; 0], fixture_link)]
                         eq_refl eq_refl eq_refl))).
Defined.

(** C9. Two runs that differ only in the token, [fetch] answering the same
    to requests that differ only in the [PRIVATE-TOKEN] header, leave the
    same report (and the same tree and the same extractions): nothing of the
    token reaches a diagnostic entry. *)
Theorem C9_token_does_not_reach_the_report
        (w : world) (sched : list nat) (base token1 token2 : string)
        (st : state) :
  (forall k url,
      fetch w k (mkRequest "GET" url [("PRIVATE-TOKEN", token1)]) =
      fetch w k (mkRequest "GET" url [("PRIVATE-TOKEN", token2)])) ->
  let st1 := fst (transformer w sched (mkOptions base token1) None st) in
  let st2 := fst (transformer w sched (mkOptions base token2) None st) in
  messages (vFile st1) = messages (vFile st2) /\
  tree st1 = tree st2 /\
  unzips st1 = unzips st2.
Proof.
  intros H. cbv zeta. rewrite !transformer_state. unfold visitLink.
  destruct (scan (tree st)) as [[|x nodes]|e]; try (repeat split; fail).
  destruct (start_tasks_token w base token1 token2 (x :: nodes) 0 H)
    as [Htasks Hrej].
  rewrite Hrej, Htasks.
  set (d2 := start_tasks w (mkOptions base token2) 0 (x :: nodes)).
  set (d1 := start_tasks w (mkOptions base token1) 0 (x :: nodes)).
  change (mkState (tree st) (vFile st) (calls st ++ d_calls d1) (unzips st))
    with (with_calls (calls st ++ d_calls d1) st).
  change (mkState (tree st) (vFile st) (calls st ++ d_calls d2) (unzips st))
    with (with_calls (calls st ++ d_calls d2) st).
  unfold await_all. cbn [fst].
  destruct (d_rejected d2); cbn [fst snd]; rewrite !exec_with_calls;
    cbn [snd]; repeat split.
Qed.

Lemma C9_token_does_not_reach_the_report_witness :
  messages (vFile (fst (transformer world_not_found [0]
                          (mkOptions "https://src.temando.io" "secret")
                          None (initial fixture))))
  = messages (vFile (fst (transformer world_not_found [0]
                            (mkOptions "https://src.temando.io" "other")
                            None (initial fixture)))).
Proof.
  exact (proj1 (C9_token_does_not_reach_the_report
                  world_not_found [0] "https://src.temando.io"
                  "secret" "other" (initial fixture)
                  (fun _ _ => eq_refl))).
Defined.

(** C10. The visitor the scanner passes to [visit] pushes a node with a
    string title exactly when the title is not empty and the marker occurs
    somewhere in it, and a scan that completes has collected, of the nodes
    with a string title, exactly the [link] nodes of the tree that pass this
    test; nothing else about the title is checked.  The task started for a
    collected node takes as project and job the second and third segments of
    the whole title split at [|], and requests the URL built from them.  So
    when the marker is not the first field the two are not the segments that
    follow the marker, and when there is no third segment the job is
    [undefined] and the URL still ends in [job=undefined]. *)
Theorem C10_scanner_and_reference
        (w : world) (opts : options) (k : nat) (p : path)
        (ty s : string) (po : option position) (cs : list node)
        (acc : list (path * node)) (ast : node) (nodes : list (path * node)) :
  collect (p, Node ty (JStr s) po cs) acc =
    Ok (if (s =? "")%string || (str_indexOf s MARKER =? -1)%Z
        then acc else acc ++ [(p, Node ty (JStr s) po cs)]) /\
  ((s =? "")%string || (str_indexOf s MARKER =? -1)%Z = false <->
   s <> "" /\ carries s MARKER) /\
  (scan ast = Ok nodes ->
   (In (p, Node ty (JStr s) po cs) nodes <->
    In (p, Node ty (JStr s) po cs) (preorder ast) /\
    ty = "link" /\ s <> "" /\ carries s MARKER)) /\
  start_task w opts k (p, Node ty (JStr s) po cs) =
    (let segs := str_split "|"%char s in
     let projectId := nth_error segs 1 in
     let jobName := nth_error segs 2 in
     let req := mkRequest "GET" (artifact_url (apiBase opts) projectId jobName)
                          [("PRIVATE-TOKEN", gitlabApiToken opts)] in
     (Ok (mkTask k p po projectId jobName
                 (AwaitArtifact
                    (match fetch w k req with
                     | Throw e => Throw e
                     | Ok response =>
                         if negb (status response =? 200)%Z
                         then Throw (Error (statusText response ++ " from "
                                              ++ req_url req ++ ".")%string)
                         else Ok (body response)
                     end))),
      [req])) /\
  scan (document [link_node (JStr "docs|gitlab-artifact|1095|build:docs")])
  = Ok [([0; 0], link_node (JStr "docs|gitlab-artifact|1095|build:docs"))] /\
  link_reference (link_node (JStr "docs|gitlab-artifact|1095|build:docs"))
  = (Some "gitlab-artifact", Some "1095") /\
  scan (document [malformed_link]) = Ok [([0; 0], malformed_link)] /\
  link_reference malformed_link = (Some "onlyOneField", None) /\
  link_url opts malformed_link =
    (apiBase opts
       ++ "/api/v4/projects/onlyOneField/jobs/artifacts/master/download?job=undefined")%string /\
  (forall base project,
      artifact_url base (Some project) None =
      (base ++ "/api/v4/projects/" ++ project
         ++ "/jobs/artifacts/master/download?job=undefined")%string).
Proof.
  assert (Htest : (s =? "")%string || (str_indexOf s MARKER =? -1)%Z = false
                  <-> s <> "" /\ carries s MARKER).
  { rewrite orb_false_iff. unfold carries. split.
    - intros [H1 H2]. split; [now apply String.eqb_neq|].
      now apply str_indexOf_found.
    - intros [H1 H2]. split; [now apply String.eqb_neq|].
      now apply str_indexOf_found. }
  split; [|split; [exact Htest|split]].
  - unfold collect. cbn [snd node_title truthy js_indexOf].
    destruct (s =? "")%string; [reflexivity|]. cbn [negb orb].
    now destruct (str_indexOf s MARKER =? -1)%Z.
  - intros Hs. rewrite (scan_collected _ _ Hs), filter_In.
    unfold collected, is_link. cbn [snd node_type node_title].
    rewrite andb_true_iff, String.eqb_eq.
    assert (Hm : match title_matches (JStr s) with
                 | Ok b => b | Throw _ => false end = true
                 <-> s <> "" /\ carries s MARKER).
    { rewrite <- title_matches_string.
      destruct (title_matches (JStr s)) as [[|]|e]; split; congruence. }
    rewrite Hm. tauto.
  - repeat split; reflexivity.
Qed.

Lemma C10_scanner_and_reference_witness :
  In ([0; 0], malformed_link) [([0; 0], malformed_link)] <->
  In ([0; 0], malformed_link) (preorder (document [malformed_link])) /\
  "link" = "link" /\ "gitlab-artifact|onlyOneField" <> "" /\
  carries "gitlab-artifact|onlyOneField" MARKER.
Proof.
  exact (proj1 (proj2 (proj2 (C10_scanner_and_reference
                                world_ok sample_options 0 [0; 0] "link"
                                "gitlab-artifact|onlyOneField"
                                sample_position [text_node] []
                                (document [malformed_link])
                                [([0; 0], malformed_link)])))
               eq_refl).
Defined.

(** * Further properties of the code *)

(** ** The reference syntax *)

Lemma str_split_no_sep (sep : ascii) (s : string) :
  has_char sep s = false -> str_split sep s = [s].
Proof.
  induction s as [|c s IH]; simpl; [reflexivity|].
  intros H. apply orb_false_iff in H. destruct H as [Hc Hs].
  rewrite Hc, (IH Hs). reflexivity.
Qed.

Lemma str_split_app (sep : ascii) (a b : string) :
  has_char sep a = false ->
  str_split sep (a ++ String sep b) = a :: str_split sep b.
Proof.
  induction a as [|c a IH]; simpl.
  - intros _. now rewrite Ascii.eqb_refl.
  - intros H. apply orb_false_iff in H. destruct H as [Hc Ha].
    rewrite Hc, (IH Ha). reflexivity.
Qed.

Lemma str_split_reference (p j : string) :
  has_char "|"%char p = false ->
  str_split "|"%char (MARKER ++ p ++ "|" ++ j)
  = "gitlab-artifact" :: p :: str_split "|"%char j.
Proof.
  intros Hp.
  change (MARKER ++ p ++ "|" ++ j)%string
    with ("gitlab-artifact" ++ String "|"%char (p ++ String "|"%char j))%string.
  rewrite str_split_app by reflexivity.
  now rewrite str_split_app by exact Hp.
Qed.

(** X1. Round trip of the reference syntax: for a link titled
    [gitlab-artifact|{projectId}|{jobName}], neither field containing a
    [|], the visitor pushes the node, so that a scan that completes on a
    tree holding the node has collected it, and the task started for it has
    exactly that project and job and requests
    [{apiBase}/api/v4/projects/{projectId}/jobs/artifacts/master/download?job={jobName}]. *)
Theorem reference_round_trip
        (w : world) (opts : options) (k : nat) (p : path)
        (po : option position) (cs : list node) (projectId jobName : string) :
  has_char "|"%char projectId = false ->
  has_char "|"%char jobName = false ->
  let n := Node "link" (JStr (MARKER ++ projectId ++ "|" ++ jobName)) po cs in
  (forall acc, collect (p, n) acc = Ok (acc ++ [(p, n)])) /\
  (forall ast nodes,
      scan ast = Ok nodes -> In (p, n) (preorder ast) -> In (p, n) nodes) /\
  (exists t, fst (start_task w opts k (p, n)) = Ok t /\
             t_projectId t = Some projectId /\ t_jobName t = Some jobName /\
             t_node t = p /\ t_position t = po) /\
  snd (start_task w opts k (p, n)) =
    [mkRequest "GET"
               (apiBase opts ++ "/api/v4/projects/" ++ projectId
                  ++ "/jobs/artifacts/master/download?job=" ++ jobName)%string
               [("PRIVATE-TOKEN", gitlabApiToken opts)]].
Proof.
  intros Hp Hj. cbv zeta.
  assert (Hsegs : str_split "|"%char (MARKER ++ projectId ++ "|" ++ jobName)
                  = ["gitlab-artifact"; projectId; jobName]).
  { rewrite (str_split_reference _ _ Hp). now rewrite (str_split_no_sep _ _ Hj). }
  assert (E : title_matches (JStr (MARKER ++ projectId ++ "|" ++ jobName))
              = Ok true).
  { apply title_matches_string. split; [discriminate|].
    exists "", (projectId ++ "|" ++ jobName)%string. reflexivity. }
  split; [|split; [|split]].
  - intros acc. rewrite collect_title_matches. cbn [snd node_title].
    now rewrite E.
  - intros ast nodes Hs Hin. rewrite (scan_collected _ _ Hs).
    apply filter_In. split; [exact Hin|].
    unfold collected, is_link. cbn [snd node_type node_title].
    change ("link" =? "link") with true. cbn [andb]. now rewrite E.
  - unfold start_task. cbn [snd fst node_title node_position js_split].
    rewrite Hsegs. cbn [nth_error]. unfold getArtifact.
    eexists. split; [reflexivity|]. repeat split.
  - unfold start_task. cbn [snd fst node_title node_position js_split].
    rewrite Hsegs. reflexivity.
Qed.

Lemma reference_round_trip_witness :
  collect ([0; 0], Node "link" (JStr (MARKER ++ "1095" ++ "|" ++ "build:docs"))
                        sample_position [text_node]) []
  = Ok [([0; 0], Node "link" (JStr (MARKER ++ "1095" ++ "|" ++ "build:docs"))
                      sample_position [text_node])].
Proof.
  exact (proj1 (reference_round_trip world_ok sample_options 0 [0; 0]
                  sample_position [text_node] "1095" "build:docs"
                  eq_refl eq_refl) []).
Defined.

(** X2. Whatever follows a third [|] in the title is ignored: the title
    [gitlab-artifact|{projectId}|{jobName}|{rest}] gives the same project,
    job and request as [gitlab-artifact|{projectId}|{jobName}]. *)
Theorem reference_ignores_further_segments
        (w : world) (opts : options) (k : nat) (p : path) (ty : string)
        (po : option position) (cs : list node)
        (projectId jobName rest : string) :
  has_char "|"%char projectId = false ->
  has_char "|"%char jobName = false ->
  start_task w opts k
    (p, Node ty (JStr (MARKER ++ projectId ++ "|" ++ jobName ++ "|" ++ rest))
                po cs)
  = start_task w opts k
      (p, Node ty (JStr (MARKER ++ projectId ++ "|" ++ jobName)) po cs).
Proof.
  intros Hp Hj. unfold start_task.
  cbn [snd fst node_title node_position js_split].
  rewrite !(str_split_reference _ _ Hp).
  change (jobName ++ "|" ++ rest)%string
    with (jobName ++ String "|"%char rest)%string.
  rewrite (str_split_app _ _ _ Hj), (str_split_no_sep _ _ Hj).
  reflexivity.
Qed.

Lemma reference_ignores_further_segments_witness :
  start_task world_ok sample_options 0
    ([0; 0], Node "link" (JStr (MARKER ++ "1095" ++ "|" ++ "build" ++ "|" ++ "x|y"))
                  None [])
  = start_task world_ok sample_options 0
      ([0; 0], Node "link" (JStr (MARKER ++ "1095" ++ "|" ++ "build")) None []).
Proof.
  exact (reference_ignores_further_segments world_ok sample_options 0 [0; 0]
           "link" None [] "1095" "build" "x|y" eq_refl eq_refl).
Defined.

(** ** [getArtifact] *)

(** X3. [getArtifact] fails in two ways and no other: when [fetch] itself is
    rejected, with that very rejection; when the response's status is not
    200, with the error [{statusText} from {url}.]. *)
Theorem getArtifact_failures
        (f : request -> result response) (apiBase token : string)
        (projectId jobName : option string) (e : error) :
  let url := artifact_url apiBase projectId jobName in
  let req := mkRequest "GET" url [("PRIVATE-TOKEN", token)] in
  snd (getArtifact f apiBase token projectId jobName) = Throw e <->
  f req = Throw e \/
  exists response,
    f req = Ok response /\ status response <> 200%Z /\
    e = Error (statusText response ++ " from " ++ url ++ ".")%string.
Proof.
  cbv zeta. unfold getArtifact. cbn [snd].
  destruct (f _) as [response|rejection].
  - destruct (Z.eqb_spec (status response) 200) as [E|E]; cbn [negb].
    + split; [discriminate|].
      intros [H|(r & Hr & Hs & _)]; [discriminate|].
      inversion Hr; subst. contradiction.
    + split.
      * intros H. inversion H. right. now exists response.
      * intros [H|(r & Hr & _ & ->)]; [discriminate|]. now inversion Hr.
  - split.
    + intros H. inversion H. now left.
    + intros [H|(r & Hr & _)]; [now inversion H | discriminate].
Qed.

(** ** What a run touches *)

Lemma map_update {A B : Type} (f : A -> B) (l : list A) (j : nat) (a a' : A) :
  nth_error l j = Some a -> f a' = f a -> map f (update j a' l) = map f l.
Proof.
  revert j; induction l as [|x l IH]; intros [|j] H E; simpl in *;
    try discriminate.
  - inversion H; subst. now rewrite E.
  - now rewrite (IH j H E).
Qed.

Lemma resume_statics (w : world) (t : task) (st : state) :
  t_node (fst (resume w t st)) = t_node t /\
  t_position (fst (resume w t st)) = t_position t.
Proof.
  unfold resume. now destruct (t_phase t) as [[artifact|e]|[|e|e]| |e].
Qed.

(** A resumption empties no title but that of its own node and records no
    entry but one whose rule is the plugin's name, with no source, at its
    own node's position. *)
Lemma advance_footprint (w : world) (a : nat) (c : list task * state) :
  map t_node (fst (advance w a c)) = map t_node (fst c) /\
  map t_position (fst (advance w a c)) = map t_position (fst c) /\
  (exists sel, tree (snd (advance w a c)) = clear_titles sel (tree (snd c)) /\
               forall q, sel q = true -> In q (map t_node (fst c))) /\
  (exists l, messages (vFile (snd (advance w a c)))
             = messages (vFile (snd c)) ++ l /\
             forall m, In m l ->
                       (m_ruleId m = Some PLUGIN_NAME /\
                        m_source m = None) /\
                       In (m_position m) (map t_position (fst c))).
Proof.
  assert (Hnone : exists sel, tree (snd c) = clear_titles sel (tree (snd c)) /\
                  forall q, sel q = true -> In q (map t_node (fst c))).
  { exists (fun _ => false). split; [|discriminate].
    symmetry. now apply clear_titles_none. }
  assert (Hnil : exists l, messages (vFile (snd c))
                           = messages (vFile (snd c)) ++ l /\
                 forall m, In m l ->
                           (m_ruleId m = Some PLUGIN_NAME /\
                            m_source m = None) /\
                           In (m_position m) (map t_position (fst c))).
  { exists []. split; [now rewrite app_nil_r | contradiction]. }
  unfold advance. destruct (uncaught (fst c)); [repeat split; assumption|].
  destruct (nth_error (fst c) a) as [t|] eqn:Ha;
    [|repeat split; assumption].
  destruct (resume_statics w t (snd c)) as [Hn Hp].
  assert (Hin_n : In (t_node t) (map t_node (fst c)))
    by (apply in_map; eapply nth_error_In; eassumption).
  assert (Hin_p : In (t_position t) (map t_position (fst c)))
    by (apply in_map; eapply nth_error_In; eassumption).
  destruct (resume w t (snd c)) as [t' st'] eqn:Hr. cbn [fst snd] in *.
  split; [now apply map_update with (a := t)|].
  split; [now apply map_update with (a := t)|].
  unfold resume in Hr.
  destruct (t_phase t) as [[artifact|e]|[|e|e]| |e]; inversion Hr; subst;
    cbn [tree vFile messages vfile_info vfile_message]; split;
    try exact Hnone; try exact Hnil.
  - exists [mkMessage KError (error_message e) (t_position t)
                      None (Some PLUGIN_NAME)].
    split; [reflexivity|]. intros m [<-|[]]. now repeat split.
  - exists (path_eqb (t_node t)). split; [apply assign_as_clear|].
    intros q Hq. apply path_eqb_eq in Hq. now subst.
  - eexists. split; [reflexivity|]. intros m [<-|[]]. now repeat split.
  - exists [mkMessage KError (error_message e) (t_position t)
                      None (Some PLUGIN_NAME)].
    split; [reflexivity|]. intros m [<-|[]]. now repeat split.
Qed.

Lemma exec_footprint (w : world) (sched : list nat) (c : list task * state) :
  (exists sel, tree (snd (exec w sched c)) = clear_titles sel (tree (snd c)) /\
               forall q, sel q = true -> In q (map t_node (fst c))) /\
  (exists l, messages (vFile (snd (exec w sched c)))
             = messages (vFile (snd c)) ++ l /\
             forall m, In m l ->
                       (m_ruleId m = Some PLUGIN_NAME /\
                        m_source m = None) /\
                       In (m_position m) (map t_position (fst c))).
Proof.
  revert c; induction sched as [|a sched IH]; intros c.
  - simpl. split.
    + exists (fun _ => false). split; [|discriminate].
      symmetry. now apply clear_titles_none.
    + exists []. split; [now rewrite app_nil_r | contradiction].
  - rewrite exec_cons.
    destruct (advance_footprint w a c)
      as (Hn & Hp & (s1 & Ht1 & Hs1) & (l1 & Hm1 & Hl1)).
    destruct (IH (advance w a c)) as ((s2 & Ht2 & Hs2) & (l2 & Hm2 & Hl2)).
    rewrite Hn in Hs2. rewrite Hp in Hl2. split.
    + exists (fun q => s2 q || s1 q). split.
      * now rewrite Ht2, Ht1, clear_clear.
      * intros q Hq. apply orb_true_iff in Hq. destruct Hq; auto.
    + exists (l1 ++ l2). split.
      * now rewrite Hm2, Hm1, app_assoc.
      * intros m Hm. apply in_app_iff in Hm. destruct Hm; auto.
Qed.

Lemma start_task_statics (w : world) (opts : options) (k : nat)
      (x : path * node) (t : task) :
  fst (start_task w opts k x) = Ok t ->
  t_node t = fst x /\ t_position t = node_position (snd x).
Proof.
  unfold start_task. destruct (js_split (node_title (snd x))); [|discriminate].
  unfold getArtifact. cbn [fst]. intros H. inversion H. now split.
Qed.

Lemma start_tasks_statics (w : world) (opts : options) (k : nat)
      (nodes : list (path * node)) (t : task) :
  In t (d_tasks (start_tasks w opts k nodes)) ->
  exists x, In x nodes /\ t_node t = fst x /\
            t_position t = node_position (snd x).
Proof.
  revert k; induction nodes as [|x nodes IH]; intros k; simpl; [contradiction|].
  pose proof (start_task_statics w opts k x) as Hx.
  destruct (start_task w opts k x) as [[t0|e] reqs]; cbn [d_tasks fst] in *.
  - intros [<-|Hin].
    + exists x. destruct (Hx t0 eq_refl). auto.
    + destruct (IH _ Hin) as (y & Hy & H). exists y. auto.
  - intros Hin. destruct (IH _ Hin) as (y & Hy & H). exists y. auto.
Qed.

Lemma start_tasks_calls (w : world) (opts : options) (k : nat)
      (nodes : list (path * node)) :
  d_calls (start_tasks w opts k nodes) = requests_for opts nodes.
Proof.
  revert k; induction nodes as [|x nodes IH]; intros k; simpl; [reflexivity|].
  specialize (IH (S k)). unfold start_task, link_request, link_url,
    link_reference.
  destruct (js_split (node_title (snd x))) as [segs|e];
    unfold getArtifact; cbn [d_calls fst snd]; now rewrite IH.
Qed.


(** What any run leaves, in terms of the nodes the scanner collected. *)
Lemma visitLink_footprint (w : world) (sched : list nat) (opts : options)
      (st : state) :
  let st' := fst (visitLink w sched opts st) in
  (exists sel, tree st' = clear_titles sel (tree st) /\
               forall q, sel q = true ->
                         exists n, In (q, n) (preorder (tree st)) /\
                                   collected (q, n) = true) /\
  (exists l, messages (vFile st') = messages (vFile st) ++ l /\
             forall m, In m l ->
                       (m_ruleId m = Some PLUGIN_NAME /\
                        m_source m = None) /\
                       exists q n, In (q, n) (preorder (tree st)) /\
                                   collected (q, n) = true /\
                                   m_position m = node_position n) /\
  calls st' = calls st ++ match scan (tree st) with
                          | Ok nodes => requests_for opts nodes
                          | Throw _ => []
                          end.
Proof.
  assert (Hsame :
    (exists sel, tree st = clear_titles sel (tree st) /\
               forall q, sel q = true ->
                         exists n, In (q, n) (preorder (tree st)) /\
                                   collected (q, n) = true) /\
    (exists l, messages (vFile st) = messages (vFile st) ++ l /\
             forall m, In m l ->
                       (m_ruleId m = Some PLUGIN_NAME /\
                        m_source m = None) /\
                       exists q n, In (q, n) (preorder (tree st)) /\
                                   collected (q, n) = true /\
                                   m_position m = node_position n)).
  { split.
    - exists (fun _ => false). split; [|discriminate].
      symmetry. now apply clear_titles_none.
    - exists []. split; [now rewrite app_nil_r | contradiction]. }
  cbv zeta. unfold visitLink.
  destruct (scan (tree st)) as [nodes|e] eqn:Hscan;
    [|destruct Hsame; repeat split; try assumption; now rewrite app_nil_r].
  destruct nodes as [|x nodes];
    [destruct Hsame; repeat split; try assumption; now rewrite app_nil_r|].
  set (d := start_tasks w opts 0 (x :: nodes)).
  set (st1 := mkState (tree st) (vFile st) (calls st ++ d_calls d) (unzips st)).
  assert (Hcol : forall t, In t (d_tasks d) ->
            exists n, In (t_node t, n) (preorder (tree st)) /\
                      collected (t_node t, n) = true /\
                      t_position t = node_position n).
  { intros t Ht. destruct (start_tasks_statics _ _ _ _ _ Ht)
      as ([q n] & Hin & Hq & Hp). cbn [fst snd] in *. subst q.
    exists n. rewrite (scan_collected _ _ Hscan) in Hin.
    apply filter_In in Hin. tauto. }
  assert (Hexec : forall s, let st' := snd (exec w s (d_tasks d, st1)) in
    (exists sel, tree st' = clear_titles sel (tree st) /\
               forall q, sel q = true ->
                         exists n, In (q, n) (preorder (tree st)) /\
                                   collected (q, n) = true) /\
    (exists l, messages (vFile st') = messages (vFile st) ++ l /\
             forall m, In m l ->
                       (m_ruleId m = Some PLUGIN_NAME /\
                        m_source m = None) /\
                       exists q n, In (q, n) (preorder (tree st)) /\
                                   collected (q, n) = true /\
                                   m_position m = node_position n) /\
    calls st' = calls st ++ requests_for opts (x :: nodes)).
  { intros s. cbv zeta.
    destruct (exec_footprint w s (d_tasks d, st1))
      as ((sel & Ht & Hsel) & (l & Hm & Hl)).
    destruct (exec_preserves w s (d_tasks d, st1)) as (_ & _ & _ & _ & _ & Hc).
    cbn [fst snd st1 tree vFile calls] in *. repeat split.
    - exists sel. split; [exact Ht|]. intros q Hq.
      apply Hsel, in_map_iff in Hq. destruct Hq as (t & <- & Hin).
      destruct (Hcol t Hin) as (n & H1 & H2 & _). eauto.
    - exists l. split; [exact Hm|]. intros m Hin.
      destruct (Hl m Hin) as [Hsrc Hpos]. split; [exact Hsrc|].
      apply in_map_iff in Hpos. destruct Hpos as (t & Hp & Ht').
      destruct (Hcol t Ht') as (n & H1 & H2 & H3).
      exists (t_node t), n. repeat split; try assumption. congruence.
    - rewrite Hc. unfold d. now rewrite start_tasks_calls. }
  destruct (d_rejected d); apply Hexec.
Qed.

(** X4. On every tree, in every environment and under every schedule, a run
    changes a title only by emptying it, and only at a node the scanner
    collected: at every path the title is what it was, or it is now the
    empty string and the node there is a collected link. *)
Theorem titles_change_only_at_collected_links
        (w : world) (sched : list nat) (opts : options) (st : state)
        (p : path) :
  let st' := fst (transformer w sched opts None st) in
  title_at p (tree st') = title_at p (tree st) \/
  (title_at p (tree st') = Some (JStr "") /\
   exists n, In (p, n) (preorder (tree st)) /\ collected (p, n) = true).
Proof.
  cbv zeta. rewrite ?transformer_state.
  destruct (visitLink_footprint w sched opts st)
    as ((sel & Ht & Hsel) & _ & _).
  rewrite Ht, title_at_clear. destruct (sel p) eqn:Hp.
  - right. destruct (Hsel p Hp) as (n & Hin & Hc).
    unfold title_at. rewrite (preorder_get _ _ _ Hin). split; [reflexivity|].
    now exists n.
  - left. now destruct (title_at p (tree st)).
Qed.

(** X5. On every tree, in every environment and under every schedule, every
    entry a run appends to the report has the plugin's name as its rule
    ([vFile.info] and [vFile.message] are given an origin without [:], which
    vfile reads as a rule id, leaving the source unset) and is attributed to
    the position of a link the scan collected. *)
Theorem entries_come_from_collected_links
        (w : world) (sched : list nat) (opts : options) (st : state) :
  let st' := fst (transformer w sched opts None st) in
  exists added,
    messages (vFile st') = messages (vFile st) ++ added /\
    forall m, In m added ->
              m_ruleId m = Some PLUGIN_NAME /\
              m_source m = None /\
              exists nodes p n,
                scan (tree st) = Ok nodes /\ In (p, n) nodes /\
                m_position m = node_position n.
Proof.
  cbv zeta. rewrite transformer_state.
  destruct (visitLink_footprint w sched opts st) as (_ & (l & Hm & Hl) & _).
  exists l. split; [exact Hm|]. intros m Hin.
  destruct (Hl m Hin) as ((Hr & Hsrc) & q & n & Hpre & Hc & Hp).
  repeat split; try assumption.
  destruct (scan (tree st)) as [nodes|e] eqn:Hscan.
  - exists nodes, q, n. repeat split; try assumption.
    rewrite (scan_collected _ _ Hscan). apply filter_In. now split.
  - exfalso. unfold visitLink in Hm. rewrite Hscan in Hm. cbn [fst] in Hm.
    rewrite <- (app_nil_r (messages (vFile st))) in Hm at 1.
    apply app_inv_head in Hm. subst l. contradiction.
Qed.

(** X6. The requests a run issues do not depend on what the environment
    answers nor on the schedule: when the scan completes they are one
    request per collected node with a string title, in document order (so a
    failed request is never repeated); when the scan throws there is
    none. *)
Theorem requests_follow_the_scan
        (w : world) (sched : list nat) (opts : options) (st : state) :
  calls (fst (transformer w sched opts None st)) =
  calls st ++ match scan (tree st) with
              | Ok nodes => requests_for opts nodes
              | Throw _ => []
              end.
Proof.
  rewrite ?transformer_state.
  destruct (visitLink_footprint w sched opts st) as (_ & _ & H). exact H.
Qed.

Lemma requests_for_shape (opts : options) (nodes : list (path * node))
      (req : request) :
  In req (requests_for opts nodes) ->
  exists n, In n (map snd nodes) /\ req = link_request opts n.
Proof.
  unfold requests_for. rewrite in_flat_map. intros (x & Hx & Hin).
  destruct (js_split (node_title (snd x))); [|contradiction].
  destruct Hin as [<-|[]]. exists (snd x). split; [now apply in_map | reflexivity].
Qed.

(** X7. Every request a run issues is a GET whose only header is
    [PRIVATE-TOKEN] with the configured token and whose URL starts with
    [{apiBase}/api/v4/projects/]: nothing is sent anywhere else. *)
Theorem requests_go_to_apiBase_with_token
        (w : world) (sched : list nat) (opts : options) (st : state) :
  exists issued,
    calls (fst (transformer w sched opts None st)) = calls st ++ issued /\
    forall req, In req issued ->
      req_method req = "GET" /\
      req_headers req = [("PRIVATE-TOKEN", gitlabApiToken opts)] /\
      exists rest,
        req_url req = (apiBase opts ++ "/api/v4/projects/" ++ rest)%string.
Proof.
  rewrite ?transformer_state.
  destruct (visitLink_footprint w sched opts st) as (_ & _ & H).
  eexists. split; [exact H|]. intros req Hin.
  destruct (scan (tree st)) as [nodes|e]; [|contradiction].
  apply requests_for_shape in Hin. destruct Hin as (n & _ & ->).
  repeat split. unfold link_request, link_url, artifact_url. cbn [req_url].
  eexists. reflexivity.
Qed.




Lemma visit_list_throws (l acc : list (path * node)) (x : path * node)
      (e : error) :
  In x l -> is_link x = true ->
  title_matches (node_title (snd x)) = Throw e ->
  exists e', visit_list "link" collect l acc = Throw e'.
Proof.
  revert acc; induction l as [|y l IH]; intros acc Hin Hl Ht; [contradiction|].
  simpl. destruct Hin as [->|Hin].
  - unfold is_link in Hl. rewrite Hl, collect_title_matches, Ht. eauto.
  - destruct (node_type (snd y) =? "link"); [|now apply IH].
    destruct (collect y acc) as [acc'|e']; [now apply IH | eauto].
Qed.

(** X9. One link whose title is truthy but has no [indexOf] (a number, a
    boolean, an object) makes the scan throw: the run then does nothing at
    all for the document, its well-formed references included. *)
Theorem ill_typed_title_disables_the_document
        (w : world) (sched : list nat) (opts : options) (st : state)
        (p : path) (n : node) (e : error) :
  In (p, n) (preorder (tree st)) ->
  node_type n = "link" ->
  truthy (node_title n) = true ->
  js_indexOf (node_title n) MARKER = Throw e ->
  (exists e', scan (tree st) = Throw e') /\
  fst (transformer w sched opts None st) = st.
Proof.
  intros Hin Hty Htr Hidx.
  assert (Hthrow : exists e', scan (tree st) = Throw e').
  { apply (visit_list_throws _ _ (p, n) e Hin).
    - unfold is_link. cbn [snd]. rewrite Hty. reflexivity.
    - unfold title_matches. cbn [snd]. now rewrite Htr, Hidx. }
  split; [exact Hthrow|]. destruct Hthrow as [e' He'].
  unfold transformer, visitLink. cbn [fst]. now rewrite He'.
Qed.

Lemma ill_typed_title_disables_the_document_witness :
  fst (transformer world_ok [0; 0] sample_options None
                   (initial (document [fixture_link; link_node (JNum 5)])))
  = initial (document [fixture_link; link_node (JNum 5)]).
Proof.
  exact (proj2 (ill_typed_title_disables_the_document
                  world_ok [0; 0] sample_options
                  (initial (document [fixture_link; link_node (JNum 5)]))
                  [0; 1] (link_node (JNum 5))
                  (Error "title.indexOf is not a function")
                  (or_intror (or_intror (or_intror (or_intror
                     (or_introl eq_refl)))))
                  eq_refl eq_refl eq_refl)).
Defined.

(** ** Well-typed documents *)

(** X10. On a well-typed tree the scan never throws: it returns, in
    document order, exactly the [link] nodes whose title is truthy and
    contains the marker, and every one of them has a string title. *)
Theorem scan_of_well_typed_tree (ast : node) :
  mdast ast = true ->
  scan ast = Ok (filter collected (preorder ast)) /\
  forall x, In x (filter collected (preorder ast)) ->
            exists a b, node_title (snd x) = JStr (a ++ MARKER ++ b).
Proof.
  intros Hm. destruct (scan_total ast Hm) as [nodes Hs].
  pose proof (scan_collected _ _ Hs) as E. rewrite <- E. split; [exact Hs|].
  intros x Hx. exact (scan_titles ast nodes x Hm Hs Hx).
Qed.

Lemma scan_of_well_typed_tree_witness :
  scan two_links = Ok (filter collected (preorder two_links)).
Proof. exact (proj1 (scan_of_well_typed_tree two_links eq_refl)). Defined.

Lemma link_unzip_extraction (w : world) (opts : options) (dest : jsval)
      (k : nat) (x : path * node) :
  link_unzip w opts dest k x = extraction_for w opts dest k x.
Proof.
  unfold link_unzip, extraction_for, link_artifact, getArtifact, link_request,
    link_url. cbn [snd].
  destruct (fetch w k _) as [response|e]; [|reflexivity].
  now destruct (status response =? 200)%Z.
Qed.

(** X11. On a well-typed tree, under every schedule, the extractions
    started by a run in which every body stream that is piped ends are, up
    to order, one for each collected link whose request was answered with
    status 200, fed with that response's body; a link whose request failed
    starts none. *)
Theorem extractions_follow_the_responses
        (w : world) (sched : list nat) (opts : options) (st : state)
        (nodes : list (path * node)) :
  mdast (tree st) = true ->
  scan (tree st) = Ok nodes ->
  streams_end w opts nodes = true ->
  exists started,
    unzips (fst (transformer w sched opts None st)) = unzips st ++ started /\
    Permutation started
      (List.concat
         (imap (extraction_for w opts (getDestinationDir (vFile st))) 0 nodes)).
Proof.
  intros Hm Hs Hends. rewrite ?transformer_state.
  destruct (visitLink_outcome w sched opts st nodes Hs (scan_strings _ _ Hm Hs)
                              Hends)
    as (_ & _ & (u & Hu & HU) & _).
  exists u. split; [exact Hu|].
  rewrite HU. apply Permutation_refl'. f_equal.
  apply imap_ext. intros k x _. apply link_unzip_extraction.
Qed.

Lemma extractions_follow_the_responses_witness :
  exists started,
    unzips (fst (transformer world_first_fails [1; 0; 1] sample_options None
                             (initial two_links)))
    = unzips (initial two_links) ++ started /\
    Permutation started
      (List.concat
         (imap (extraction_for world_first_fails sample_options
                               (getDestinationDir (vFile (initial two_links))))
               0 [([0; 0], fixture_link); ([0; 1], second_link)])).
Proof.
  exact (extractions_follow_the_responses
           world_first_fails [1; 0; 1] sample_options (initial two_links)
           [([0; 0], fixture_link); ([0; 1], second_link)] eq_refl eq_refl
           eq_refl).
Defined.

(** X12. On a well-typed tree, when every body stream that is piped ends,
    the order in which the tasks are resumed shows only in the order of the
    report's new entries and of the extractions: two runs that differ in
    nothing but the schedule end with the same tree and the same requests,
    and with reports and extraction logs that are permutations of each
    other. *)
Theorem schedule_changes_only_the_order
        (w : world) (sched1 sched2 : list nat) (opts : options) (st : state)
        (nodes : list (path * node)) :
  mdast (tree st) = true ->
  scan (tree st) = Ok nodes ->
  streams_end w opts nodes = true ->
  let st1 := fst (transformer w sched1 opts None st) in
  let st2 := fst (transformer w sched2 opts None st) in
  tree st1 = tree st2 /\
  calls st1 = calls st2 /\
  Permutation (messages (vFile st1)) (messages (vFile st2)) /\
  Permutation (unzips st1) (unzips st2).
Proof.
  intros Hm Hs Hends. cbv zeta. rewrite ?transformer_state.
  destruct (visitLink_outcome w sched1 opts st nodes Hs (scan_strings _ _ Hm Hs)
                              Hends)
    as (_ & (l1 & Hm1 & Hl1) & (u1 & Hu1 & HU1) & Ht1 & Hc1).
  destruct (visitLink_outcome w sched2 opts st nodes Hs (scan_strings _ _ Hm Hs)
                              Hends)
    as (_ & (l2 & Hm2 & Hl2) & (u2 & Hu2 & HU2) & Ht2 & Hc2).
  repeat split; try congruence.
  - rewrite Hm1, Hm2. apply Permutation_app_head.
    now rewrite Hl1, Hl2.
  - rewrite Hu1, Hu2. apply Permutation_app_head.
    now rewrite HU1, HU2.
Qed.

Lemma schedule_changes_only_the_order_witness :
  tree (fst (transformer world_first_fails [0; 0; 1; 1] sample_options None
                         (initial two_links)))
  = tree (fst (transformer world_first_fails [1; 1; 0; 0] sample_options None
                           (initial two_links))).
Proof.
  exact (proj1 (schedule_changes_only_the_order
                  world_first_fails [0; 0; 1; 1] [1; 1; 0; 0] sample_options
                  (initial two_links)
                  [([0; 0], fixture_link); ([0; 1], second_link)]
                  eq_refl eq_refl eq_refl)).
Defined.

(** The order of the entries does follow the schedule. *)
Example schedule_orders_the_report :
  map m_kind
      (messages (vFile (fst (transformer world_first_fails [0; 0; 1; 1]
                               sample_options None (initial two_links)))))
  = [KError; KInfo] /\
  map m_kind
      (messages (vFile (fst (transformer world_first_fails [1; 1; 0; 0]
                               sample_options None (initial two_links)))))
  = [KInfo; KError].
Proof. split; reflexivity. Qed.

Lemma Permutation_filter_length {A : Type} (f : A -> bool) (l l' : list A) :
  Permutation l l' ->
  List.length (filter f l) = List.length (filter f l').
Proof.
  induction 1 as [|x l l' _ IH|x y l|l l' l'' _ IH1 _ IH2]; simpl.
  - reflexivity.
  - destruct (f x); simpl; now rewrite IH.
  - destruct (f x), (f y); reflexivity.
  - congruence.
Qed.

Lemma error_entries_failed_links (w : world) (opts : options) (dest : jsval)
      (nodes : list (path * node)) (b : nat) :
  List.length (filter is_error_entry
                      (List.concat (imap (link_entry w opts dest) b nodes)))
  = List.length
      (List.concat (imap (fun k x => match link_result w opts dest k (snd x) with
                                     | Failed _ => [x]
                                     | _ => []
                                     end) b nodes)).
Proof.
  revert b; induction nodes as [|x nodes IH]; intros b; simpl; [reflexivity|].
  rewrite filter_app, !length_app, <- IH. unfold link_entry at 1.
  destruct (link_result w opts dest b (snd x)); reflexivity.
Qed.

Lemma entries_length (w : world) (opts : options) (dest : jsval)
      (nodes : list (path * node)) (b : nat) :
  forallb (fun c : bool => c)
          (imap (fun k x => stream_ends w opts k (snd x)) b nodes) = true ->
  List.length (List.concat (imap (link_entry w opts dest) b nodes))
  = List.length nodes.
Proof.
  revert b; induction nodes as [|x nodes IH]; intros b; simpl; [reflexivity|].
  intros H. apply andb_true_iff in H. destruct H as [Hx H].
  rewrite length_app, (IH _ H).
  rewrite (link_result_stream_ends w opts dest) in Hx. unfold link_entry.
  now destruct (link_result w opts dest b (snd x)).
Qed.

(** X13. On a well-typed tree with N collected links, a run in which every
    body stream that is piped ends appends, under every schedule, exactly N
    entries; as many of them are error entries as there are links whose task
    ended in its [catch], the others being informational. *)
Theorem one_entry_per_collected_link
        (w : world) (sched : list nat) (opts : options) (st : state)
        (nodes : list (path * node)) :
  mdast (tree st) = true ->
  scan (tree st) = Ok nodes ->
  streams_end w opts nodes = true ->
  exists added,
    messages (vFile (fst (transformer w sched opts None st)))
    = messages (vFile st) ++ added /\
    List.length added = List.length nodes /\
    List.length (filter is_error_entry added)
    = List.length (failed_links w opts (getDestinationDir (vFile st)) nodes).
Proof.
  intros Hm Hs Hends. rewrite ?transformer_state.
  destruct (visitLink_outcome w sched opts st nodes Hs (scan_strings _ _ Hm Hs)
                              Hends)
    as (_ & (l & Hl & HP) & _).
  exists l. split; [exact Hl|]. split.
  - rewrite (Permutation_length HP). now apply entries_length.
  - rewrite (Permutation_filter_length is_error_entry _ _ HP).
    apply error_entries_failed_links.
Qed.

Lemma one_entry_per_collected_link_witness :
  exists added,
    messages (vFile (fst (transformer world_first_fails [1; 0; 1]
                            sample_options None (initial two_links))))
    = messages (vFile (initial two_links)) ++ added /\
    List.length added = 2 /\
    List.length (filter is_error_entry added)
    = List.length (failed_links world_first_fails sample_options
                                (JStr "/out")
                                [([0; 0], fixture_link); ([0; 1], second_link)]).
Proof.
  exact (one_entry_per_collected_link
           world_first_fails [1; 0; 1] sample_options (initial two_links)
           [([0; 0], fixture_link); ([0; 1], second_link)] eq_refl eq_refl
           eq_refl).
Defined.

(** ** Running again *)

Lemma node_position_clear (sel : path -> bool) (n : node) :
  node_position (clear_titles sel n) = node_position n.
Proof. now destruct n. Qed.

Lemma visit_list_map (g : path * node -> path * node)
      (keep : path * node -> bool) (l acc : list (path * node)) :
  (forall x, In x l -> node_type (snd (g x)) = node_type (snd x)) ->
  (forall x, In x l -> is_link x = true ->
             title_matches (node_title (snd (g x))) = Ok (keep x)) ->
  visit_list "link" collect (map g l) acc =
  Ok (acc ++ map g (filter (fun x => is_link x && keep x) l)).
Proof.
  revert acc; induction l as [|x l IH]; intros acc Hty Hk; simpl.
  - now rewrite app_nil_r.
  - rewrite (Hty x (or_introl eq_refl)). unfold is_link at 1.
    destruct (node_type (snd x) =? "link") eqn:E; cbn [andb].
    + rewrite collect_title_matches, (Hk x (or_introl eq_refl) E).
      destruct (keep x).
      * rewrite IH by (intros; auto using in_cons). simpl.
        now rewrite <- app_assoc.
      * apply IH; intros; auto using in_cons.
    + apply IH; intros; auto using in_cons.
Qed.

Lemma filter_andb {A : Type} (f g : A -> bool) (l : list A) :
  filter (fun x => f x && g x) l = filter g (filter f l).
Proof.
  induction l as [|x l IH]; simpl; [reflexivity|].
  destruct (f x); simpl; [destruct (g x)|]; now rewrite IH.
Qed.

Lemma filter_concat_imap {A : Type} (f : A -> bool) (l : list A) (b : nat) :
  filter f l = List.concat (imap (fun _ x => if f x then [x] else []) b l).
Proof.
  revert b; induction l as [|x l IH]; intros b; simpl; [reflexivity|].
  rewrite <- IH. now destruct (f x).
Qed.

(** X14. After a run on a well-typed tree in which every body stream that
    is piped ended, a second scan collects exactly the links whose task
    failed in the first run, in document order, with the titles and
    positions they had: running the transformer again retries the failed
    links and only those. *)
Theorem rerun_collects_the_failed_links
        (w : world) (sched : list nat) (opts : options) (st : state)
        (nodes : list (path * node)) :
  mdast (tree st) = true ->
  scan (tree st) = Ok nodes ->
  streams_end w opts nodes = true ->
  exists again,
    scan (tree (fst (transformer w sched opts None st))) = Ok again /\
    map link_view again =
    map link_view (failed_links w opts (getDestinationDir (vFile st)) nodes).
Proof.
  intros Hm Hs Hends. rewrite ?transformer_state.
  destruct (visitLink_outcome w sched opts st nodes Hs (scan_strings _ _ Hm Hs)
                              Hends)
    as (_ & _ & _ & Ht & _).
  set (dest := getDestinationDir (vFile st)) in *.
  set (sel := clears w dest (imap (link_task w opts) 0 nodes)) in *.
  set (g := fun x : path * node =>
              (fst x, clear_titles (fun q => sel (fst x ++ q)) (snd x))).
  set (keep := fun x : path * node =>
                 match title_matches (node_title (snd x)) with
                 | Ok b => b
                 | Throw _ => false
                 end && negb (sel (fst x))).
  assert (Hscan2 : scan (tree (fst (visitLink w sched opts st)))
                   = Ok (map g (filter (fun x => negb (sel (fst x))) nodes))).
  { rewrite Ht. unfold scan, visit. rewrite preorder_clear.
    fold g. rewrite (visit_list_map g keep).
    - cbn [app]. do 2 f_equal. rewrite (scan_collected _ _ Hs).
      rewrite <- filter_andb. apply filter_ext. intros x.
      unfold collected, keep. now rewrite andb_assoc.
    - intros x _. unfold g. cbn [snd]. apply node_type_clear.
    - intros [q m] Hin _. unfold g, keep. cbn [fst snd].
      rewrite node_title_clear, app_nil_r.
      pose proof (mdast_preorder _ _ _ Hm Hin) as Hopt.
      destruct (sel q); cbn [negb].
      + now rewrite andb_false_r.
      + rewrite andb_true_r.
        now destruct (title_matches_optional _ Hopt) as [-> | ->]. }
  eexists. split; [exact Hscan2|].
  rewrite map_map.
  rewrite (map_ext_in _ link_view).
  2:{ intros x Hx. apply filter_In in Hx. destruct Hx as [_ Hx].
      unfold link_view, g. cbn [fst snd].
      rewrite node_title_clear, node_position_clear, app_nil_r.
      apply negb_true_iff in Hx. now rewrite Hx. }
  f_equal. unfold failed_links.
  rewrite (filter_concat_imap _ nodes 0). f_equal.
  apply imap_ext. intros k x Hk. cbn [Nat.add].
  unfold sel.
  rewrite (clears_link w opts dest nodes k x (scan_paths_NoDup _ _ Hs) Hk).
  rewrite will_clear_link.
  pose proof (stream_ends_nth w opts nodes k x Hends Hk) as He.
  rewrite (link_result_stream_ends w opts dest) in He.
  now destruct (link_result w opts dest k (snd x)).
Qed.

Lemma rerun_collects_the_failed_links_witness :
  exists again,
    scan (tree (fst (transformer world_first_fails [1; 0; 1] sample_options
                                 None (initial two_links)))) = Ok again /\
    map link_view again =
    map link_view
        (failed_links world_first_fails sample_options
                      (getDestinationDir (vFile (initial two_links)))
                      [([0; 0], fixture_link); ([0; 1], second_link)]).
Proof.
  exact (rerun_collects_the_failed_links
           world_first_fails [1; 0; 1] sample_options (initial two_links)
           [([0; 0], fixture_link); ([0; 1], second_link)] eq_refl eq_refl
           eq_refl).
Defined.

(** In the sample the first link failed and is the one collected again. *)
Example rerun_sample :
  map link_view
      (failed_links world_first_fails sample_options (JStr "/out")
                    [([0; 0], fixture_link); ([0; 1], second_link)])
  = [([0; 0], JStr fixture_title, sample_position)].
Proof. reflexivity. Qed.

(** ** Links do not interfere *)

(** X15. On a well-typed tree, in runs in which every body stream that is
    piped ends, what a run does to a collected link (whether its title is
    emptied, and the entry recorded for it) depends only on what the
    environment answers to that link's own request and extraction: two such
    runs in environments that agree on the [k]-th link's [fetch] and unzip
    stream, under any two schedules, treat that link alike, whether the
    other links' requests and extractions succeed or fail.  (A body stream
    that breaks off, of whichever link, ends the whole run.) *)
Theorem links_are_processed_independently
        (w1 w2 : world) (sched1 sched2 : list nat) (opts : options)
        (st : state) (nodes : list (path * node)) (k : nat) (p : path)
        (n : node) :
  mdast (tree st) = true ->
  scan (tree st) = Ok nodes ->
  streams_end w1 opts nodes = true ->
  streams_end w2 opts nodes = true ->
  nth_error nodes k = Some (p, n) ->
  (forall req, fetch w1 k req = fetch w2 k req) ->
  (forall dir artifact, unzip w1 k dir artifact = unzip w2 k dir artifact) ->
  let dest := getDestinationDir (vFile st) in
  title_at p (tree (fst (transformer w1 sched1 opts None st))) =
  title_at p (tree (fst (transformer w2 sched2 opts None st))) /\
  link_entry w1 opts dest k (p, n) = link_entry w2 opts dest k (p, n).
Proof.
  intros Hm Hs He1 He2 Hk Hf Hu. cbv zeta.
  assert (Hres : link_result w1 opts (getDestinationDir (vFile st)) k n
                 = link_result w2 opts (getDestinationDir (vFile st)) k n).
  { pose proof (stream_ends_nth w1 opts nodes k (p, n) He1 Hk) as E1.
    pose proof (stream_ends_nth w2 opts nodes k (p, n) He2 Hk) as E2.
    rewrite (link_result_stream_ends w1 opts (getDestinationDir (vFile st)))
      in E1.
    rewrite (link_result_stream_ends w2 opts (getDestinationDir (vFile st)))
      in E2. cbn [snd] in E1, E2.
    rewrite !link_result_cases, Hf in *.
    destruct (fetch w2 k (link_request opts n)) as [response|e];
      [|reflexivity].
    destruct (status response =? 200)%Z; [|reflexivity].
    rewrite Hu in *.
    destruct (body_flow w1 k (body response)); [|discriminate].
    destruct (body_flow w2 k (body response)); [|discriminate].
    reflexivity. }
  destruct (link_facts w1 sched1 opts st nodes k (p, n) Hm Hs He1 Hk)
    as (H1 & _).
  destruct (link_facts w2 sched2 opts st nodes k (p, n) Hm Hs He2 Hk)
    as (H2 & _).
  cbn [fst snd] in H1, H2. split.
  - now rewrite H1, H2, Hres.
  - unfold link_entry. cbn [snd]. rewrite Hres.
    now destruct (link_result w2 opts (getDestinationDir (vFile st)) k n).
Qed.

Lemma links_are_processed_independently_witness :
  title_at [0; 1]
           (tree (fst (transformer world_first_fails [0; 0; 1; 1]
                                   sample_options None (initial two_links))))
  = title_at [0; 1]
             (tree (fst (transformer world_ok [1; 1; 0; 0]
                                     sample_options None (initial two_links)))).
Proof.
  exact (proj1 (links_are_processed_independently
                  world_first_fails world_ok [0; 0; 1; 1] [1; 1; 0; 0]
                  sample_options (initial two_links)
                  [([0; 0], fixture_link); ([0; 1], second_link)]
                  1 [0; 1] second_link
                  eq_refl eq_refl eq_refl eq_refl eq_refl
                  (fun _ => eq_refl) (fun _ _ => eq_refl))).
Defined.

(** ** What the transformer hands back *)


